(** * Reliability pipeline of the LLM gateway: a shallow embedding

    The development follows the TypeScript sources of the service:
    - [src/services/retry.ts]               (module [Retry])
    - [src/middleware/rate-limit.ts]        (module [RateLimit])
    - [src/services/idempotency.ts]         (module [Idempotency])
    - [src/providers/base.ts]               (module [Base])
    - [src/providers/anthropic.ts]          (module [Anthropic])
    - [src/services/circuit-breaker.ts]     (module [Breaker])
    - [src/services/llm-service.ts]         (module [Service])
    - [src/services/request-coalescing.ts]  (module [Coalescing])
    - the construction in [src/server.ts]   (module [Wiring])

    Conventions.  JavaScript numbers that the code uses as counters,
    millisecond timestamps, millisecond delays and the backoff factor are
    integers here ([Z]); the service reads its settings with [parseInt].
    [Date.now()] is an explicit argument [now].  Objects stored in a [Map]
    and mutated in place are modelled by re-inserting the updated record
    under the same key.  Asynchronous functions are modelled by their settled
    outcome and by explicit state passing for whatever they may touch; a
    rejection carries an [Error], as the cast [error as Error] in the retry
    driver takes for granted.  Calls of the logger are left out. *)

From Stdlib Require Import ZArith Lia Ascii String.
From stdpp Require Import base tactics option list strings pretty gmap fin_maps.

Local Open Scope Z_scope.

(* ===================================================================== *)
(** * Part I: the program                                                 *)
(* ===================================================================== *)

(** ** JavaScript values shared by the components *)

Module Js.

(** An [Error] object; only its [message] is ever read. *)
Record Error := mkError { message : string }.

(** Outcome of awaiting a promise. *)
Inductive Settled (T : Type) :=
| Fulfilled (v : T)
| Rejected (e : Error).
Arguments Fulfilled {T} v.
Arguments Rejected {T} e.

Definition is_rejected {T} (r : Settled T) : bool :=
  match r with Rejected _ => true | Fulfilled _ => false end.

Definition is_fulfilled {T} (r : Settled T) : bool :=
  match r with Fulfilled _ => true | Rejected _ => false end.

(** Template-literal rendering of an integral number. *)
Definition numberToString (n : Z) : string := pretty n.

(** Reading a decimal numeral, to say which number a rendered text names:
    an optional minus sign, then one or more digits, most significant
    first. *)
Definition digitValue (c : ascii) : option N :=
  if decide (c = "0"%char) then Some 0%N
  else if decide (c = "1"%char) then Some 1%N
  else if decide (c = "2"%char) then Some 2%N
  else if decide (c = "3"%char) then Some 3%N
  else if decide (c = "4"%char) then Some 4%N
  else if decide (c = "5"%char) then Some 5%N
  else if decide (c = "6"%char) then Some 6%N
  else if decide (c = "7"%char) then Some 7%N
  else if decide (c = "8"%char) then Some 8%N
  else if decide (c = "9"%char) then Some 9%N
  else None.

Fixpoint readDigits (acc : N) (s : string) : option N :=
  match s with
  | EmptyString => Some acc
  | String c rest =>
    match digitValue c with
    | Some d => readDigits (10 * acc + d)%N rest
    | None => None
    end
  end.

Definition readDecimal (s : string) : option Z :=
  match s with
  | EmptyString => None
  | String c rest =>
    if decide (c = "-"%char) then
      match rest with
      | EmptyString => None
      | _ => (λ n, - Z.of_N n) <$> readDigits 0 rest
      end
    else Z.of_N <$> readDigits 0 s
  end.

End Js.

(** ** [src/services/retry.ts] *)

Module Retry.
Import Js.

Record RetryOptions := mkRetryOptions {
  maxAttempts : Z;
  initialDelay : Z;
  maxDelay : Z;
  factor : Z
}.

(** The default value of the [options] parameter. *)
Definition defaultOptions : RetryOptions :=
  {| maxAttempts := 3; initialDelay := 100; maxDelay := 5000; factor := 2 |}.

(** How the promise returned by [retryWithBackoff] settles.  The thrown
    value is [lastError : Error | undefined]; [None] is [undefined]. *)
Inductive Completion (T : Type) :=
| Return (v : T)
| Throw (e : option Error).
Arguments Return {T} v.
Arguments Throw {T} e.

(** What the driver does, in order: a call of [fn], or a
    [setTimeout(resolve, ms)] that it awaits. *)
Inductive Event :=
| Invoke
| Sleep (ms : Z).

#[global] Instance Event_eq_dec : EqDecision Event.
Proof. solve_decision. Defined.

(** [new Error(`Max retry attempts (${n}) reached. Last error: ${msg}`)] *)
Definition maxAttemptsError (n : Z) (lastError : Error) : Error :=
  mkError ("Max retry attempts (" +:+ numberToString n +:+
           ") reached. Last error: " +:+ message lastError).

Section Driver.
Context {St T : Type}.
(** [fn : () => Promise<T>], with the state it may read and write. *)
Variable fn : St → Settled T * St.
Variable options : RetryOptions.

Definition extend (evs : list Event)
    (r : option (Completion T * St * list Event))
    : option (Completion T * St * list Event) :=
  match r with
  | Some (c, s, tr) => Some (c, s, evs ++ tr)
  | None => None
  end.

(** The [for] loop, entered at its test [attempt <= options.maxAttempts]
    with the current values of the three locals.  [fuel] bounds the
    number of iterations; [None] means the bound was too small. *)
Fixpoint loop (fuel : nat) (attempt delay : Z) (lastError : option Error)
    (s : St) : option (Completion T * St * list Event) :=
  match fuel with
  | O => None
  | S fuel' =>
    if attempt <=? maxAttempts options then
      match fn s with
      | (Fulfilled v, s') => Some (Return v, s', [Invoke])
      | (Rejected error, s') =>
        if attempt =? maxAttempts options then
          Some (Throw (Some (maxAttemptsError (maxAttempts options) error)),
                s', [Invoke])
        else
          extend [Invoke; Sleep delay]
            (loop fuel' (attempt + 1)
               (Z.min (delay * factor options) (maxDelay options))
               (Some error) s')
      end
    else Some (Throw lastError, s, [])
  end.

Definition retryWithBackoff (s : St)
    : option (Completion T * St * list Event) :=
  loop (S (Z.to_nat (maxAttempts options))) 1 (initialDelay options) None s.

End Driver.

(** *** Vocabulary for stating properties of the driver *)

(** State reached after [k] calls of [fn]. *)
Fixpoint stateAfter {St T} (fn : St → Settled T * St) (s : St) (k : nat) : St :=
  match k with
  | O => s
  | S k' => snd (fn (stateAfter fn s k'))
  end.

(** Outcome of call number [k + 1] of [fn]. *)
Definition outcomeOf {St T} (fn : St → Settled T * St) (s : St) (k : nat)
    : Settled T :=
  fst (fn (stateAfter fn s k)).

Definition invocations (tr : list Event) : nat :=
  length (filter (λ ev, ev = Invoke) tr).

Definition sleeps (tr : list Event) : list Z :=
  omap (λ ev, match ev with Sleep ms => Some ms | Invoke => None end) tr.

(** One update of the local [delay] at the end of a failed attempt. *)
Definition nextDelay (o : RetryOptions) (d : Z) : Z :=
  Z.min (d * factor o) (maxDelay o).

(** Events of [j] failed attempts followed by a pause, starting from the
    value [d] of [delay], and of the call that ends the loop. *)
Definition runEvents (o : RetryOptions) (d : Z) (j : nat) : list Event :=
  flat_map (λ i, [Invoke; Sleep (Nat.iter i (nextDelay o) d)]) (seq 0 j)
  ++ [Invoke].

(** The delay the specification gives for the pause after attempt [i]. *)
Definition specDelay (o : RetryOptions) (i : Z) : Z :=
  Z.min (initialDelay o * factor o ^ (i - 1)) (maxDelay o).

(** [j] failed attempts, each followed by the specified pause, then one
    last call. *)
Definition specSchedule (o : RetryOptions) (j : nat) : list Event :=
  flat_map (λ i, [Invoke; Sleep (specDelay o (Z.of_nat i))]) (seq 1 j)
  ++ [Invoke].

End Retry.

(** ** [src/middleware/rate-limit.ts] *)

Module RateLimit.

Record RateLimitEntry := mkEntry { count : Z; resetTime : Z }.

Record RateLimiter := mkLimiter {
  requests : gmap string RateLimitEntry;
  maxRequests : Z;
  windowMs : Z
}.

(** [new RateLimiter(maxRequests, windowMs)]; the defaults are 100 and
    60000. *)
Definition new (maxRequests windowMs : Z) : RateLimiter :=
  {| requests := ∅; maxRequests := maxRequests; windowMs := windowMs |}.

(** The object [check] returns; [reset] is its [resetTime] property. *)
Record CheckResult := mkResult { allowed : bool; remaining : Z; reset : Z }.

Definition setEntry (key : string) (e : RateLimitEntry) (l : RateLimiter)
    : RateLimiter :=
  {| requests := <[key := e]> (requests l);
     maxRequests := maxRequests l; windowMs := windowMs l |}.

(** [if (!entry || now > entry.resetTime)] *)
Definition startsWindow (now : Z) (entry : option RateLimitEntry) : bool :=
  match entry with
  | None => true
  | Some e => now >? resetTime e
  end.

(** The first branch of [check]: a new entry replaces whatever is stored. *)
Definition openWindow (now : Z) (key : string) (l : RateLimiter)
    : CheckResult * RateLimiter :=
  let newEntry := {| count := 1; resetTime := now + windowMs l |} in
  ({| allowed := true; remaining := maxRequests l - 1;
      reset := resetTime newEntry |},
   setEntry key newEntry l).

Definition check (now : Z) (key : string) (l : RateLimiter)
    : CheckResult * RateLimiter :=
  match requests l !! key with
  | None => openWindow now key l
  | Some entry =>
    if now >? resetTime entry then openWindow now key l
    else if count entry >=? maxRequests l then
      ({| allowed := false; remaining := 0; reset := resetTime entry |}, l)
    else
      (* [entry.count++] mutates the object held by the map *)
      let entry' := {| count := count entry + 1; resetTime := resetTime entry |} in
      ({| allowed := true; remaining := maxRequests l - count entry';
          reset := resetTime entry' |},
       setEntry key entry' l)
  end.

(** A sequence of checks [(now, key)] on one limiter, with the result of
    each. *)
Fixpoint checks (calls : list (Z * string)) (l : RateLimiter)
    : list (string * CheckResult) * RateLimiter :=
  match calls with
  | [] => ([], l)
  | (now, key) :: rest =>
    let '(r, l1) := check now key l in
    let '(rs, l2) := checks rest l1 in
    ((key, r) :: rs, l2)
  end.

(** Number of checks on [key] in a sequence. *)
Definition checksOn (key : string) (calls : list (Z * string)) : nat :=
  length (filter (λ c, snd c = key) calls).

(** What holds of every limiter built by [new maxR win] and used only
    through [check]. *)
Definition limiterInv (maxR win : Z) (l : RateLimiter) : Prop :=
  maxRequests l = maxR ∧ windowMs l = win ∧
  ∀ key e, requests l !! key = Some e → 1 ≤ count e ≤ Z.max maxR 1.

End RateLimit.

(** ** [src/services/idempotency.ts] *)

Module Idempotency.

Section Cache.
(** The cached [response: unknown]; the route stores validated
    [ChatResponse] objects.  The result [None] of [get] is
    [undefined]. *)
Context {Response : Type}.

Record CacheEntry := mkCacheEntry { response : Response; timestamp : Z }.

Record IdempotencyCache := mkCache {
  cache : gmap string CacheEntry;
  ttl : Z
}.

(** [new IdempotencyCache(ttlMs)]; the default is 3600000. *)
Definition new (ttlMs : Z) : IdempotencyCache :=
  {| cache := ∅; ttl := ttlMs |}.

Definition get (now : Z) (key : string) (c : IdempotencyCache)
    : option Response * IdempotencyCache :=
  match cache c !! key with
  | None => (None, c)
  | Some entry =>
    if now - timestamp entry >? ttl c then
      (None, {| cache := delete key (cache c); ttl := ttl c |})
    else (Some (response entry), c)
  end.

Definition set (now : Z) (key : string) (r : Response) (c : IdempotencyCache)
    : IdempotencyCache :=
  {| cache := <[key := {| response := r; timestamp := now |}]> (cache c);
     ttl := ttl c |}.

Definition has (now : Z) (key : string) (c : IdempotencyCache)
    : bool * IdempotencyCache :=
  match cache c !! key with
  | None => (false, c)
  | Some entry =>
    if now - timestamp entry >? ttl c then
      (false, {| cache := delete key (cache c); ttl := ttl c |})
    else (true, c)
  end.

End Cache.
Arguments CacheEntry : clear implicits.
Arguments IdempotencyCache : clear implicits.

End Idempotency.

(** ** [src/providers/base.ts] *)

Module Base.
Import Js.

Inductive Role := system | user | assistant.

#[global] Instance Role_eq_dec : EqDecision Role.
Proof. solve_decision. Defined.

Record Message := mkMessage { role : Role; content : string }.

Record ChatRequest := mkChatRequest {
  model : string;
  messages : list Message;
  temperature : option QArith_base.Q;
  maxTokens : option Z;
  timeout : option Z
}.

Record Usage := mkUsage {
  promptTokens : Z;
  completionTokens : Z;
  totalTokens : Z
}.

Inductive FinishReason := stop | length | content_filter.

Record ChatResponse := mkChatResponse {
  id : string;
  responseContent : string;      (* [content] *)
  responseModel : string;        (* [model] *)
  finishReason : FinishReason;
  usage : Usage
}.

(** [{ success: true; data } | { success: false; error; retryable }] *)
Inductive ProviderResult :=
| Success (data : ChatResponse)
| Failure (error : Error) (retryable : bool).

(** [interface LLMProvider]; [World] is what [chat] acts on. *)
Record LLMProvider {World : Type} := mkProvider {
  name : string;
  chat : ChatRequest → World → ProviderResult * World
}.
Arguments LLMProvider : clear implicits.

End Base.

(** ** [src/providers/anthropic.ts] *)

Module Anthropic.
Import Js Base.

(** The argument of [client.messages.create]. *)
Record MessageCreateParams := mkParams {
  p_model : string;
  p_system : option string;          (* [undefined] when no system message *)
  p_messages : list Message;
  max_tokens : Z;
  p_temperature : option QArith_base.Q
}.

Definition isSystem (m : Message) : bool := bool_decide (role m = system).

(** The request built inside [chat]. *)
Definition createParams (request : ChatRequest) : MessageCreateParams :=
  let systemMsg := List.find isSystem (messages request) in
  let messages := List.filter (λ m, negb (isSystem m)) (messages request) in
  {| p_model := model request;
     p_system := content <$> systemMsg;              (* [systemMsg?.content] *)
     p_messages := messages;
     max_tokens := default 4096 (maxTokens request);  (* [?? 4096] *)
     p_temperature := temperature request |}.

(** What the vendor client returns, as far as [chat] reads it. *)
Inductive ContentBlock := TextBlock (text : string) | OtherBlock.

Record ApiResponse := mkApiResponse {
  r_id : string;
  r_content : list ContentBlock;
  r_model : string;
  stop_reason : string;
  input_tokens : Z;
  output_tokens : Z
}.

(** What the vendor client throws: an [Anthropic.APIError] with an
    optional HTTP status, or anything else. *)
Inductive Thrown :=
| APIError (status : option Z) (e : Error)
| OtherError (e : Error).

Definition errorOf (t : Thrown) : Error :=
  match t with APIError _ e => e | OtherError e => e end.

Definition isRetryable (error : Thrown) : bool :=
  match error with
  | APIError (Some status) _ =>
    if status =? 0 then true                        (* a falsy status *)
    else (status >=? 500) || (status =? 429)
  | APIError None _ => true
  | OtherError _ => true
  end.

Definition toChatResponse (response : ApiResponse) : ChatResponse :=
  {| id := r_id response;
     responseContent :=
       match r_content response with
       | TextBlock text :: _ => text
       | _ => EmptyString
       end;
     responseModel := r_model response;
     finishReason :=
       if String.eqb (stop_reason response) "max_tokens" then length else stop;
     usage := {| promptTokens := input_tokens response;
                 completionTokens := output_tokens response;
                 totalTokens := input_tokens response + output_tokens response |} |}.

Section Chat.
Context {World : Type}.
(** [this.client.messages.create], with the world it acts on. *)
Variable create : MessageCreateParams → World → (ApiResponse + Thrown) * World.

Definition chat (request : ChatRequest) (w : World) : ProviderResult * World :=
  match create (createParams request) w with
  | (inl response, w') => (Success (toChatResponse response), w')
  | (inr error, w') => (Failure (errorOf error) (isRetryable error), w')
  end.
End Chat.

(** The specification's reading of the forwarded list: the messages that
    remain once the first system message has been lifted out. *)
Fixpoint withoutFirstSystem (ms : list Message) : list Message :=
  match ms with
  | [] => []
  | m :: rest => if isSystem m then rest else m :: withoutFirstSystem rest
  end.

End Anthropic.

(** ** [src/services/circuit-breaker.ts] *)

Module Breaker.
Import Js Base.

Record CircuitBreakerOptions := mkBreakerOptions {
  timeout : Z;
  errorThresholdPercentage : Z;
  resetTimeout : Z
}.

(** How a call of the wrapped function ends, as the breaker sees it: its
    promise resolves with a result or rejects with an error within
    [timeout] milliseconds, or does neither in that time. *)
Inductive CallOutcome :=
| Answered (r : ProviderResult)
| Threw (e : Error)
| Late.

Section Breaker.
(** What the wrapped function acts on. *)
Context {Upstream : Type}.

(** The configuration object handed to [new CircuitBreaker(fn, {...})]:
    the three numbers and a key [fallback]. *)
Record Config := mkConfig {
  wrapped : ChatRequest → Upstream → CallOutcome * Upstream;
  options : CircuitBreakerOptions;
  fallback : unit → ProviderResult
}.

Definition createCircuitBreaker
    (fn : ChatRequest → Upstream → CallOutcome * Upstream)
    (opts : CircuitBreakerOptions) : Config :=
  {| wrapped := fn;
     options := {| timeout := timeout opts;
                   errorThresholdPercentage := errorThresholdPercentage opts;
                   resetTimeout := resetTimeout opts |};
     fallback := λ _, Failure (mkError "Circuit breaker is OPEN") false |}.

(** Modelled from the spec: the [CircuitBreaker] class itself comes from
    the [opossum] package, which is not part of the sources.  The states,
    the statistics and the transitions below are the state machine of the
    specification's section 4.3 and the [BreakerState] of its section 3.
    Fires are handled one at a time, so no second fire arrives while a
    probe is in flight.  The statistics are plain counters since the last
    reset; the specification leaves the length of the rolling window and
    the minimum sample size open, the latter is the parameter
    [minimumSamples]; the error of a timeout is the parameter
    [timeoutError].

    How the promise of [fire] settles is taken from what the sources show
    of the package, the unit test [circuit-breaker.test.ts]: a fire on an
    open breaker made by [createCircuitBreaker] throws an error "Breaker is
    open".  The package reads no key [fallback] among the constructor's
    options; a fallback is registered with the method [breaker.fallback],
    which the sources never call.  So the [fallback] of the configuration
    is carried but never run.  The package looks at how the wrapped promise
    settles, not at the value: a promise that resolves, also with
    [{success: false}], is a success and [fire] resolves with its value; a
    promise that rejects or is late is a failure and [fire] rejects. *)
Inductive State := Closed | Open | HalfOpen.

Record BreakerState := mkBreaker {
  state : State;
  fires : Z;
  failures : Z;
  openedAt : option Z
}.

Inductive Emitted := EvOpen | EvHalfOpen | EvClose.

Variable minimumSamples : Z.
Variable timeoutError : Error.

(** Modelled from the spec: "After [resetTimeout] milliseconds elapse
    since [openedAt], the next fire transitions to [HalfOpen]". *)
Definition refresh (opts : CircuitBreakerOptions) (now : Z) (b : BreakerState)
    : BreakerState :=
  match state b, openedAt b with
  | Open, Some t0 =>
    if resetTimeout opts <=? now - t0
    then {| state := HalfOpen; fires := fires b; failures := failures b;
            openedAt := openedAt b |}
    else b
  | _, _ => b
  end.


(** Modelled from the spec: what the breaker counts as a failure.  A
    resolved promise is a success whatever its value. *)
Definition isFailure (out : CallOutcome) : bool :=
  match out with
  | Answered _ => false
  | Threw _ => true
  | Late => true
  end.

(** Modelled from the spec: how [fire] settles once the wrapped function
    was called. *)
Definition settledOf (out : CallOutcome) : Settled ProviderResult :=
  match out with
  | Answered r => Fulfilled r
  | Threw e => Rejected e
  | Late => Rejected timeoutError
  end.

(** Modelled from the spec: the error of a fire that an open breaker
    refuses, as the unit test reads it. *)
Definition openError : Error := mkError "Breaker is open".

(** Modelled from the spec: the error rate meets or exceeds the
    threshold, with a minimum sample size. *)
Definition thresholdMet (opts : CircuitBreakerOptions) (b : BreakerState) : bool :=
  (minimumSamples <=? fires b) &&
  (errorThresholdPercentage opts * fires b <=? 100 * failures b).

Record Fired := mkFired {
  settled : Settled ProviderResult; (* how the promise of [fire] settles *)
  after : BreakerState;
  upstream : Upstream;
  invoked : nat;                   (* calls of the wrapped function *)
  emitted : list Emitted
}.

(** Modelled from the spec: [breaker.fire(request)] at time [now]. *)
Definition fire (cfg : Config) (now : Z) (request : ChatRequest)
    (b : BreakerState) (u : Upstream) : Fired :=
  let opts := options cfg in
  let b1 := refresh opts now b in
  let woke := match state b, state b1 with
              | Open, HalfOpen => [EvHalfOpen]
              | _, _ => []
              end in
  match state b1 with
  | Open =>
    {| settled := Rejected openError; after := b1; upstream := u;
       invoked := 0; emitted := woke |}
  | Closed =>
    let '(out, u') := wrapped cfg request u in
    let b2 := {| state := Closed; fires := fires b1 + 1;
                 failures := failures b1 + (if isFailure out then 1 else 0);
                 openedAt := openedAt b1 |} in
    if thresholdMet opts b2 then
      {| settled := settledOf out;
         after := {| state := Open; fires := fires b2; failures := failures b2;
                     openedAt := Some now |};
         upstream := u'; invoked := 1; emitted := woke ++ [EvOpen] |}
    else
      {| settled := settledOf out; after := b2; upstream := u';
         invoked := 1; emitted := woke |}
  | HalfOpen =>
    let '(out, u') := wrapped cfg request u in
    if isFailure out then
      {| settled := settledOf out;
         after := {| state := Open; fires := fires b1; failures := failures b1;
                     openedAt := Some now |};
         upstream := u'; invoked := 1; emitted := woke ++ [EvOpen] |}
    else
      {| settled := settledOf out;
         after := {| state := Closed; fires := 0; failures := 0;
                     openedAt := None |};
         upstream := u'; invoked := 1; emitted := woke ++ [EvClose] |}
  end.

End Breaker.
Arguments Config : clear implicits.
Arguments Fired : clear implicits.

End Breaker.

(** ** [src/services/llm-service.ts] *)

Module Service.
Import Js Base Retry.

Section Service.
(** Everything a breaker-protected call may read and write: the
    breakers' own state and whatever the providers act on. *)
Context {World : Type}.

(** A breaker object, as the service uses it: its [fire] method. *)
Record CircuitBreaker := mkCircuitBreaker {
  fire : ChatRequest → World → Settled ProviderResult * World
}.

Record LLMService := mkService {
  providers : gmap string (LLMProvider World);
  defaultProvider : string;
  circuitBreakers : gmap string CircuitBreaker
}.

(** The breaker options the constructor uses when none are given. *)
Definition defaultBreakerOptions : Breaker.CircuitBreakerOptions :=
  {| Breaker.timeout := 30000; Breaker.errorThresholdPercentage := 50;
     Breaker.resetTimeout := 60000 |}.

(** The constructor.  Later providers of the same name replace earlier ones
    in both maps, as [Map.set] does.  [createCircuitBreaker] makes the
    breaker object; its first argument names the place where the new object
    keeps its state. *)
Definition new
    (createCircuitBreaker :
       string → (ChatRequest → World → ProviderResult * World) →
       Breaker.CircuitBreakerOptions → CircuitBreaker)
    (ps : list (LLMProvider World)) (defaultProvider : string)
    (options : option Breaker.CircuitBreakerOptions) : LLMService :=
  {| providers := foldl (λ m p, <[name p := p]> m) ∅ ps;
     defaultProvider := defaultProvider;
     circuitBreakers :=
       foldl (λ m p,
                <[name p := createCircuitBreaker (name p)
                              (λ req, Base.chat p req)
                              (default defaultBreakerOptions options)]> m)
             ∅ ps |}.

(** The retry options written out in [chat]. *)
Definition chatRetryOptions : RetryOptions :=
  {| maxAttempts := 3; initialDelay := 100; maxDelay := 5000; factor := 2 |}.

(** The closure passed to [retryWithBackoff].  [breaker] is the result
    of [this.circuitBreakers.get(provider.name)!]; calling [fire] on
    [undefined] throws a [TypeError] inside the closure. *)
Definition protectedCall (breaker : option CircuitBreaker)
    (request : ChatRequest) (w : World) : Settled ProviderResult * World :=
  match breaker with
  | Some b => fire b request w
  | None =>
    (Rejected (mkError "Cannot read properties of undefined (reading 'fire')"), w)
  end.

Definition chat (svc : LLMService) (request : ChatRequest)
    (providerName : option string) (w : World)
    : option (Completion ChatResponse * World * list Event) :=
  let wanted := default (defaultProvider svc) providerName in
  match providers svc !! wanted with
  | None =>
    Some (Throw (Some (mkError ("Provider not found: " +:+ wanted))), w, [])
  | Some provider =>
    let breaker := circuitBreakers svc !! name provider in
    match retryWithBackoff (protectedCall breaker request) chatRetryOptions w with
    | None => None
    | Some (Throw e, w', tr) => Some (Throw e, w', tr)
    | Some (Return result, w', tr) =>
      match result with
      | Failure error _ => Some (Throw (Some error), w', tr)   (* [throw result.error] *)
      | Success data => Some (Return data, w', tr)
      end
    end
  end.

End Service.
Arguments CircuitBreaker : clear implicits.
Arguments LLMService : clear implicits.

End Service.

(** ** [src/services/request-coalescing.ts] *)

Module Coalescing.
Import Js.

Section Coalescer.
Context {TKey TResult : Type}.
(** [JSON.stringify] on the keys that are not strings. *)
Variable stringify : TKey → string.

Inductive Key :=
| Str (s : string)
| Obj (k : TKey).

Definition serializeKey (key : Key) : string :=
  match key with
  | Str s => s
  | Obj k => stringify k
  end.

(** A promise is known by its identity. *)
Record PendingRequest := mkPending { promise : nat; timestamp : Z }.

Record RequestCoalescer := mkCoalescer {
  pending : gmap string PendingRequest;
  windowMs : Z
}.

(** [new RequestCoalescer(windowMs)]; the default is 100. *)
Definition new (windowMs : Z) : RequestCoalescer :=
  {| pending := ∅; windowMs := windowMs |}.

(** The promises [execute] has made.  Each call of [fn] yields promise
    number [made]; for a promise still in flight, [cleanup] holds the
    key its [finally] callback will delete; [outcome] holds how a
    settled promise ended. *)
Record Promises := mkPromises {
  made : nat;
  cleanup : gmap nat string;
  outcome : gmap nat (Settled TResult)
}.

Definition noPromises : Promises :=
  {| made := 0; cleanup := ∅; outcome := ∅ |}.

(** What one call of [execute] did: the promise the caller awaits, and
    whether this caller's [fn] was invoked. *)
Record Executed := mkExecuted {
  key_str : string;
  awaited : nat;
  called : bool
}.

(** The second half of [execute]: call [fn], attach the cleanup, store
    the entry. *)
Definition startRequest (keyStr : string) (now : Z)
    (st : RequestCoalescer * Promises) : Executed * (RequestCoalescer * Promises) :=
  let '(c, h) := st in
  let p := made h in
  ({| key_str := keyStr; awaited := p; called := true |},
   ({| pending := <[keyStr := {| promise := p; timestamp := now |}]> (pending c);
       windowMs := windowMs c |},
    {| made := S p; cleanup := <[p := keyStr]> (cleanup h);
       outcome := outcome h |})).

Definition execute (key : Key) (now : Z) (st : RequestCoalescer * Promises)
    : Executed * (RequestCoalescer * Promises) :=
  let keyStr := serializeKey key in
  match pending (fst st) !! keyStr with
  | Some existing =>
    if now - timestamp existing <? windowMs (fst st) then
      ({| key_str := keyStr; awaited := promise existing; called := false |}, st)
    else startRequest keyStr now st
  | None => startRequest keyStr now st
  end.

(** The promise [p] made by some [fn()] settles with [r]: its [finally]
    callback runs [this.pending.delete(keyStr)], then the promise every
    caller holds settles the same way. *)
Definition settle (p : nat) (r : Settled TResult)
    (st : RequestCoalescer * Promises) : RequestCoalescer * Promises :=
  let '(c, h) := st in
  match cleanup h !! p with
  | Some keyStr =>
    ({| pending := delete keyStr (pending c); windowMs := windowMs c |},
     {| made := made h; cleanup := delete p (cleanup h);
        outcome := <[p := r]> (outcome h) |})
  | None => st
  end.

Definition pendingCount (c : RequestCoalescer) : nat := size (pending c).

Definition clear (c : RequestCoalescer) : RequestCoalescer :=
  {| pending := ∅; windowMs := windowMs c |}.

(** What the event loop runs, one step at a time. *)
Inductive Step :=
| Execute (key : Key) (now : Z)
| Settle (p : nat) (r : Settled TResult).

Fixpoint run (steps : list Step) (st : RequestCoalescer * Promises)
    : list Executed * (RequestCoalescer * Promises) :=
  match steps with
  | [] => ([], st)
  | Execute key now :: rest =>
    let '(e, st1) := execute key now st in
    let '(es, st2) := run rest st1 in
    (e :: es, st2)
  | Settle p r :: rest => run rest (settle p r st)
  end.

(** A step that leaves the call [p] on [keyStr], started at [t0], alone
    and current: a caller on the same key arrives inside the window, and
    [p] itself does not settle yet. *)
Definition duringCall (w : Z) (keyStr : string) (p : nat) (t0 : Z) (s : Step)
    : Prop :=
  match s with
  | Execute key now => serializeKey key = keyStr → now - t0 < w
  | Settle q _ => q ≠ p
  end.

(** The call [p] on [keyStr] is the stored one, and the only one in
    flight for that key. *)
Definition sole (keyStr : string) (p : nat) (t0 : Z)
    (st : RequestCoalescer * Promises) : Prop :=
  pending (fst st) !! keyStr = Some (mkPending p t0) ∧
  cleanup (snd st) !! p = Some keyStr ∧
  (∀ q, cleanup (snd st) !! q = Some keyStr → q = p) ∧
  (p < made (snd st))%nat.

End Coalescer.
Arguments Key : clear implicits.
Arguments RequestCoalescer : clear implicits.
Arguments Promises : clear implicits.
Arguments Step : clear implicits.

End Coalescing.

(** ** The service with its breakers, as [server.ts] builds it *)

Module Wiring.
Import Js Base.

Section Wiring.
Context {Upstream : Type}.
Variable minimumSamples : Z.
Variable timeoutError : Error.

(** The world of a running service: the clock, the state of each breaker
    under the name of its provider, and what the providers act on. *)
Record World := mkWorld {
  clock : Z;
  breakers : gmap string Breaker.BreakerState;
  outside : Upstream
}.

Definition initialBreaker : Breaker.BreakerState :=
  {| Breaker.state := Breaker.Closed; Breaker.fires := 0; Breaker.failures := 0;
     Breaker.openedAt := None |}.

(** Modelled from the spec: the object that [new CircuitBreaker] returns
    comes from the [opossum] package, which is not part of the sources.
    This is a breaker object whose state is kept at [place], seen through
    its [fire] method, which is [Breaker.fire] at the time of the clock: the
    promise settles as that fire settles, and may reject. *)
Definition breakerObject (place : string) (cfg : Breaker.Config World)
    : Service.CircuitBreaker World :=
  {| Service.fire := λ request w,
       let b := default initialBreaker (breakers w !! place) in
       let f := Breaker.fire minimumSamples timeoutError cfg (clock w) request b w in
       let w' := Breaker.upstream f in
       (Breaker.settled f,
        {| clock := clock w';
           breakers := <[place := Breaker.after f]> (breakers w');
           outside := outside w' |}) |}.

(** The function handed to [createCircuitBreaker] by the service's
    constructor, [(req) => provider.chat(req)], for a provider whose [chat]
    resolves within the timeout. *)
Definition answering (fn : ChatRequest → World → ProviderResult * World)
    (request : ChatRequest) (w : World) : Breaker.CallOutcome * World :=
  let '(r, w') := fn request w in (Breaker.Answered r, w').

Definition createCircuitBreaker (place : string)
    (fn : ChatRequest → World → ProviderResult * World)
    (opts : Breaker.CircuitBreakerOptions) : Service.CircuitBreaker World :=
  breakerObject place (Breaker.createCircuitBreaker (answering fn) opts).

(** A provider acts on what is outside the service. *)
Definition lift (p : LLMProvider Upstream) : LLMProvider World :=
  {| name := name p;
     chat := λ request w,
       let '(r, u') := chat p request (outside w) in
       (r, {| clock := clock w; breakers := breakers w; outside := u' |}) |}.

(** [new LLMService(providers, defaultProvider)] as [buildServer] calls
    it. *)
Definition buildService (ps : list (LLMProvider Upstream)) (defaultProvider : string)
    : Service.LLMService World :=
  Service.new createCircuitBreaker (lift <$> ps) defaultProvider None.

End Wiring.
Arguments World : clear implicits.

End Wiring.

(** ** Inputs used in the examples *)

Module Examples.
Import Js Base.

(** A function that rejects on every call and counts its calls. *)
Definition alwaysFail (msg : string) (calls : nat) : Settled unit * nat :=
  (Rejected (mkError msg), S calls).

Definition request : ChatRequest :=
  {| model := "gpt-4"; messages := [mkMessage user "test"];
     temperature := None; maxTokens := None; timeout := None |}.

(** A provider whose upstream answers 503 every time: the adapters turn
    that into a failed result with [retryable = true].  Its world counts
    the calls of [chat]. *)
Definition unavailable : LLMProvider nat :=
  {| name := "openai";
     chat := λ _ calls, (Failure (mkError "503 Service Unavailable") true, S calls) |}.

(** The same upstream, as the function a breaker wraps. *)
Definition unavailableCall (_ : ChatRequest) (calls : nat)
    : Breaker.CallOutcome * nat :=
  (Breaker.Answered (Failure (mkError "503 Service Unavailable") true), S calls).

Definition openBreaker (since : Z) : Breaker.BreakerState :=
  {| Breaker.state := Breaker.Open; Breaker.fires := 10; Breaker.failures := 10;
     Breaker.openedAt := Some since |}.

End Examples.

(** ** [src/middleware/rate-limit.ts]: the request hook *)

Module RateLimitHook.
Import RateLimit.

(** A header value: a number or a string. *)
Inductive HeaderValue :=
| HNum (n : Z)
| HStr (s : string).

(** [{ error: 'Too many requests', retryAfter }] *)
Record TooManyRequests := mkTooMany { error : string; retryAfter : Z }.

(** What the hook did to the reply: the headers it set, in order, and the
    status and body it sent, if it sent any. *)
Record Reply := mkReply {
  headers : list (string * HeaderValue);
  sent : option (Z * TooManyRequests)
}.

(** [Math.ceil(a / 1000)] for an integer [a]. *)
Definition ceilSeconds (a : Z) : Z := - ((- a) / 1000).

Definition getMaxRequests (l : RateLimiter) : Z := maxRequests l.

Section Hook.
(** [new Date(ms).toISOString()] *)
Variable toISOString : Z → string.

(** The hook [rateLimitMiddleware(limiter)] on a request from [ip].
    [now] is the time [check] reads, [now2] the time read for
    [retryAfter]. *)
Definition rateLimitMiddleware (ip : string) (now now2 : Z) (l : RateLimiter)
    : Reply * RateLimiter :=
  let key := ip in
  let '(result, l') := check now key l in
  let hs := [("X-RateLimit-Limit", HNum (getMaxRequests l'));
             ("X-RateLimit-Remaining", HNum (remaining result));
             ("X-RateLimit-Reset", HStr (toISOString (reset result)))] in
  if allowed result then ({| headers := hs; sent := None |}, l')
  else
    ({| headers := hs;
        sent := Some (429, {| error := "Too many requests";
                              retryAfter := ceilSeconds (reset result - now2) |}) |},
     l').

End Hook.

End RateLimitHook.

(** ** Vocabulary for runs of the coalescer *)

Module CoalescingRuns.
Import Js Coalescing.

Section Runs.
Context {TKey TResult : Type}.

(** Every stored entry holds a promise that is still in flight and whose
    cleanup is registered for the entry's own key; promise numbers in use
    are below the next one. *)
Definition entriesInFlight (st : RequestCoalescer * Promises TResult) : Prop :=
  (∀ k e, pending (fst st) !! k = Some e →
          cleanup (snd st) !! promise e = Some k) ∧
  (∀ p k, cleanup (snd st) !! p = Some k → (p < made (snd st))%nat).

(** The times at which the callers of a run arrive never go back, starting
    from [t]. *)
Fixpoint clockFrom (t : Z) (steps : list (Step TKey TResult)) : Prop :=
  match steps with
  | [] => True
  | Execute _ now :: rest => t ≤ now ∧ clockFrom now rest
  | Settle _ _ :: rest => clockFrom t rest
  end.

End Runs.

End CoalescingRuns.

(** ** [src/routes/chat.ts] *)

Module Route.
Import Js Base Retry.

(** The body after [ChatCompletionRequestSchema.parse]. *)
Record ParsedBody := mkBody {
  b_model : string;
  b_messages : list Message;
  b_temperature : option QArith_base.Q;
  b_maxTokens : option Z;
  b_provider : option string;
  b_timeout : Z
}.

Section Route.
(** [Raw] is the request body as received, [Issues] the error list of a
    [ZodError]. *)
Context {World Raw Issues : Type}.
(** [ChatCompletionRequestSchema.parse]; [inl] is a thrown [ZodError]. *)
Variable parseRequest : Raw → Issues + ParsedBody.
(** [ChatCompletionResponseSchema.parse] *)
Variable parseResponse : ChatResponse → Issues + ChatResponse.

(** What the handler sends. *)
Inductive Sent :=
| Cached (body : ChatResponse)          (* 200 with header [X-Cached: true] *)
| Completed (body : ChatResponse)       (* 200 *)
| ValidationError (details : Issues).   (* 400 [{error: 'Validation error', details}] *)

(** How the handler ends: with a reply, or by rethrowing to the global
    error handler.  The errors [llmService.chat] throws are not
    [ZodError]s. *)
Inductive Outcome :=
| Replied (r : Sent)
| Rethrown (e : option Error).

Definition statusOf (r : Sent) : Z :=
  match r with
  | Cached _ | Completed _ => 200
  | ValidationError _ => 400
  end.

(** [if (idempotencyKey)]: an absent header and an empty one are falsy. *)
Definition usableKey (idempotencyKey : option string) : option string :=
  match idempotencyKey with
  | Some EmptyString => None
  | other => other
  end.

(** The lookup at the top of the handler. *)
Definition lookupCached (idempotencyKey : option string) (now : Z)
    (c : Idempotency.IdempotencyCache ChatResponse)
    : option ChatResponse * Idempotency.IdempotencyCache ChatResponse :=
  match usableKey idempotencyKey with
  | Some key => Idempotency.get now key c
  | None => (None, c)
  end.

(** The store after a validated response. *)
Definition storeResponse (idempotencyKey : option string) (now : Z)
    (r : ChatResponse) (c : Idempotency.IdempotencyCache ChatResponse)
    : Idempotency.IdempotencyCache ChatResponse :=
  match usableKey idempotencyKey with
  | Some key => Idempotency.set now key r c
  | None => c
  end.

(** The request handed to [llmService.chat]: four fields of the body. *)
Definition toChatRequest (body : ParsedBody) : ChatRequest :=
  {| model := b_model body; messages := b_messages body;
     temperature := b_temperature body; maxTokens := b_maxTokens body;
     timeout := None |}.

(** The handler of [POST /v1/chat/completions].  [now] is the time of the
    cache lookup, [now2] the time of the store. *)
Definition handler (svc : Service.LLMService World)
    (idempotencyKey : option string) (raw : Raw) (now now2 : Z)
    (c : Idempotency.IdempotencyCache ChatResponse) (w : World)
    : option (Outcome * Idempotency.IdempotencyCache ChatResponse * World) :=
  let '(cached, c1) := lookupCached idempotencyKey now c in
  match cached with
  | Some v => Some (Replied (Cached v), c1, w)
  | None =>
    match parseRequest raw with
    | inl issues => Some (Replied (ValidationError issues), c1, w)
    | inr body =>
      match Service.chat svc (toChatRequest body) (b_provider body) w with
      | None => None
      | Some (Throw e, w', _) => Some (Rethrown e, c1, w')
      | Some (Return response, w', _) =>
        match parseResponse response with
        | inl issues => Some (Replied (ValidationError issues), c1, w')
        | inr validated =>
          Some (Replied (Completed validated),
                storeResponse idempotencyKey now2 validated c1, w')
        end
      end
    end
  end.

(** The status the client sees, the global error handler of [server.ts]
    included: what the handler rethrows becomes 500. *)
Definition finalStatus (o : Outcome) : Z :=
  match o with
  | Replied r => statusOf r
  | Rethrown _ => 500
  end.

End Route.

End Route.

(** ** [src/routes/chat.ts]: handlers running side by side *)

Module RouteRuns.
Import Js Base Retry Route.

Section Runs.
Context {Raw Issues : Type}.
Variable parseRequest : Raw → Issues + ParsedBody.
Variable parseResponse : ChatResponse → Issues + ChatResponse.

(** The handler has one [await], that of [llmService.chat]; what comes
    before it runs without interruption, and so does what comes after.
    [arrive] is the part before: the lookup and the validation of the
    body.  It ends with a reply, or with the body whose request is handed
    to the service. *)
Definition arrive (idempotencyKey : option string) (raw : Raw) (now : Z)
    (c : Idempotency.IdempotencyCache ChatResponse)
    : (@Sent Issues + ParsedBody) * Idempotency.IdempotencyCache ChatResponse :=
  let '(cached, c1) := lookupCached idempotencyKey now c in
  match cached with
  | Some v => (inl (Cached v), c1)
  | None =>
    match parseRequest raw with
    | inl issues => (inl (ValidationError issues), c1)
    | inr body => (inr body, c1)
    end
  end.

(** The part after the [await], entered with how [llmService.chat]
    settled, at time [now2]: validation of the response, the store, the
    reply. *)
Definition resume (idempotencyKey : option string)
    (answer : Completion ChatResponse) (now2 : Z)
    (c : Idempotency.IdempotencyCache ChatResponse)
    : @Outcome Issues * Idempotency.IdempotencyCache ChatResponse :=
  match answer with
  | Throw e => (Rethrown e, c)
  | Return response =>
    match parseResponse response with
    | inl issues => (Replied (ValidationError issues), c)
    | inr validated =>
      (Replied (Completed validated),
       storeResponse idempotencyKey now2 validated c)
    end
  end.

(** The server between two such parts: the one cache all handlers share,
    and the handlers that await the service, each under its request id with
    the key header it read. *)
Record Server := mkServer {
  shared : Idempotency.IdempotencyCache ChatResponse;
  awaiting : gmap nat (option string)
}.

(** What happens at the server, in the order it happens: a request
    arrives, or the service call of a waiting handler settles.  How the
    service settles a call is part of the event: the property stated over
    these runs holds whatever the service does. *)
Inductive Event :=
| Arrives (id : nat) (idempotencyKey : option string) (raw : Raw) (now : Z)
| Settles (id : nat) (answer : Completion ChatResponse) (now : Z).

(** One event; the first component is the reply or rethrown error the
    event ends with, if it ends a handler. *)
Definition step (ev : Event) (s : Server) : option (@Outcome Issues) * Server :=
  match ev with
  | Arrives id idempotencyKey raw now =>
    match arrive idempotencyKey raw now (shared s) with
    | (inl sent, c1) =>
      (Some (Replied sent), {| shared := c1; awaiting := awaiting s |})
    | (inr _, c1) =>
      (None, {| shared := c1; awaiting := <[id := idempotencyKey]> (awaiting s) |})
    end
  | Settles id answer now =>
    match awaiting s !! id with
    | None => (None, s)
    | Some idempotencyKey =>
      let '(o, c1) := resume idempotencyKey answer now (shared s) in
      (Some o, {| shared := c1; awaiting := delete id (awaiting s) |})
    end
  end.

Fixpoint run (evs : list Event) (s : Server)
    : list (option (@Outcome Issues)) * Server :=
  match evs with
  | [] => ([], s)
  | ev :: rest =>
    let '(r, s1) := step ev s in
    let '(rs, s2) := run rest s1 in
    (r :: rs, s2)
  end.

(** The entry of [key] holds [v], stored at [t], and no waiting handler
    read [key]. *)
Definition settledKey (key : string) (v : ChatResponse) (t : Z) (s : Server)
    : Prop :=
  Idempotency.cache (shared s) !! key = Some (Idempotency.mkCacheEntry v t) ∧
  ∀ id, awaiting s !! id ≠ Some (Some key).

End Runs.

End RouteRuns.

(** ** [src/providers/openai.ts] *)

Module OpenAI.
Import Js Base.

(** The argument of [client.chat.completions.create]. *)
Record CompletionCreateParams := mkParams {
  p_model : string;
  p_messages : list Message;
  p_temperature : option QArith_base.Q;
  max_tokens : option Z                 (* [undefined] when unset *)
}.

Definition createParams (request : ChatRequest) : CompletionCreateParams :=
  {| p_model := model request;
     p_messages := messages request;
     p_temperature := temperature request;
     max_tokens := maxTokens request |}.

(** What the vendor client returns, as far as [chat] reads it.
    [messageContent] is [message?.content], [None] when it is missing or
    null. *)
Record Choice := mkChoice {
  messageContent : option string;
  finish_reason : string
}.

Record ApiUsage := mkApiUsage {
  prompt_tokens : option Z;
  completion_tokens : option Z;
  total_tokens : option Z
}.

Record ApiResponse := mkApiResponse {
  r_id : string;
  choices : list Choice;
  r_model : string;
  r_usage : option ApiUsage
}.

Inductive Thrown :=
| APIError (status : option Z) (e : Error)
| OtherError (e : Error).

Definition errorOf (t : Thrown) : Error :=
  match t with APIError _ e => e | OtherError e => e end.

Definition isRetryable (error : Thrown) : bool :=
  match error with
  | APIError (Some status) _ =>
    if status =? 0 then true
    else (status >=? 500) || (status =? 429)
  | APIError None _ => true
  | OtherError _ => true
  end.

Definition toChatResponse (response : ApiResponse) : ChatResponse :=
  {| id := r_id response;
     responseContent :=
       match choices response with
       | choice :: _ => default EmptyString (messageContent choice)
       | [] => EmptyString
       end;
     responseModel := r_model response;
     finishReason :=
       match choices response with
       | choice :: _ =>
         if String.eqb (finish_reason choice) "length" then length else stop
       | [] => stop
       end;
     usage := {| promptTokens := default 0 (r_usage response ≫= prompt_tokens);
                 completionTokens := default 0 (r_usage response ≫= completion_tokens);
                 totalTokens := default 0 (r_usage response ≫= total_tokens) |} |}.

Section Chat.
Context {World : Type}.
Variable create : CompletionCreateParams → World → (ApiResponse + Thrown) * World.

Definition chat (request : ChatRequest) (w : World) : ProviderResult * World :=
  match create (createParams request) w with
  | (inl response, w') => (Success (toChatResponse response), w')
  | (inr error, w') => (Failure (errorOf error) (isRetryable error), w')
  end.
End Chat.

End OpenAI.

(** ** Further inputs used in the examples *)

Module Scenarios.
Import Js Base.

(** A function that rejects on its first two calls and fulfils afterwards;
    its state counts the calls. *)
Definition failTwice (calls : nat) : Settled string * nat :=
  if (calls <? 2)%nat then (Rejected (mkError "fail"), S calls)
  else (Fulfilled "success", S calls).

(** A limiter of two requests a minute that has used up its window for
    "ip-1". *)
Definition usedUp : RateLimit.RateLimiter :=
  snd (RateLimit.checks [(0, "ip-1"); (1, "ip-1")] (RateLimit.new 2 60000)).

Definition sampleResponse : ChatResponse :=
  {| id := "r1"; responseContent := "hello"; responseModel := "gpt-4";
     finishReason := stop;
     usage := {| promptTokens := 3; completionTokens := 2; totalTokens := 5 |} |}.

Definition otherResponse : ChatResponse :=
  {| id := "r2"; responseContent := "bonjour"; responseModel := "gpt-4";
     finishReason := stop;
     usage := {| promptTokens := 3; completionTokens := 2; totalTokens := 5 |} |}.

(** Breakers over a world that counts the fires. *)
Definition rejectingBreaker : Service.CircuitBreaker nat :=
  {| Service.fire := λ _ fires, (Rejected (mkError "Breaker is open"), S fires) |}.

Definition flakyBreaker : Service.CircuitBreaker nat :=
  {| Service.fire := λ _ fires,
       if (fires <? 1)%nat then (Rejected (mkError "Timed out"), S fires)
       else (Fulfilled (Success sampleResponse), S fires) |}.

Definition answeringBreaker : Service.CircuitBreaker nat :=
  {| Service.fire := λ _ fires, (Fulfilled (Success sampleResponse), S fires) |}.

Definition serviceWith (b : Service.CircuitBreaker nat) : Service.LLMService nat :=
  {| Service.providers := {[ "openai" := Examples.unavailable ]};
     Service.defaultProvider := "openai";
     Service.circuitBreakers := {[ "openai" := b ]} |}.

(** A request body: [None] stands for one the schema rejects. *)
Definition parseBody (raw : option Route.ParsedBody) : list string + Route.ParsedBody :=
  match raw with
  | Some body => inr body
  | None => inl ["Required"]
  end.

Definition acceptResponse (r : ChatResponse) : list string + ChatResponse := inr r.

Definition sampleBody : Route.ParsedBody :=
  {| Route.b_model := "gpt-4"; Route.b_messages := [mkMessage user "hello"];
     Route.b_temperature := None; Route.b_maxTokens := None;
     Route.b_provider := None; Route.b_timeout := 30000 |}.

End Scenarios.

(* ===================================================================== *)
(** * Part II: properties                                                 *)
(* ===================================================================== *)

(** ** Rendering of numbers *)

Section NumberRendering.
Import Js.

Lemma digitValue_char (d : N) :
  (d < 10)%N → digitValue (pretty_N_char d) = Some d.
Proof.
  intros Hd.
  assert (d = 0 ∨ d = 1 ∨ d = 2 ∨ d = 3 ∨ d = 4 ∨ d = 5 ∨ d = 6 ∨ d = 7
          ∨ d = 8 ∨ d = 9)%N as Hcases by lia.
  repeat (destruct Hcases as [->|Hcases]; [reflexivity|]). subst d. reflexivity.
Qed.

(** The digits that [pretty_N_go x] puts in front of [s] read as [x]. *)
Lemma readDigits_go (x : N) : ∀ s,
  ∃ k : N, ∀ acc,
    readDigits acc (pretty_N_go x s) = readDigits (acc * 10 ^ k + x)%N s.
Proof.
  induction (N.lt_wf_0 x) as [x _ IH]. intros s.
  destruct (decide (x = 0%N)) as [->|Hx].
  - exists 0%N. intros acc. rewrite pretty_N_go_0. f_equal. lia.
  - rewrite pretty_N_go_step by lia.
    destruct (IH (x `div` 10)%N) with (s := String (pretty_N_char (x `mod` 10)) s)
      as [k Hk].
    { apply N.div_lt; lia. }
    exists (N.succ k). intros acc. rewrite Hk. cbn [readDigits].
    rewrite digitValue_char by (apply N.mod_lt; lia).
    f_equal. rewrite N.pow_succ_r'.
    pose proof (N.div_mod x 10 ltac:(lia)). lia.
Qed.

Lemma readDigits_pos (p : positive) :
  readDigits 0 (pretty_N_go (N.pos p) "") = Some (N.pos p).
Proof.
  destruct (readDigits_go (N.pos p) "") as [k Hk]. rewrite Hk. cbn. f_equal.
Qed.

(** A non-empty digit string reads as its value, and as the opposite value
    behind a minus sign. *)
Lemma readDecimal_digits (s : string) (n : N) :
  s ≠ EmptyString → readDigits 0 s = Some n →
  readDecimal s = Some (Z.of_N n) ∧
  readDecimal (String "-" s) = Some (- Z.of_N n).
Proof.
  intros Hs Hr. split.
  - destruct s as [|c rest]; [contradiction|].
    change (readDecimal (String c rest))
      with (if decide (c = "-"%char) then
              match rest with
              | EmptyString => None
              | _ => (λ n, - Z.of_N n) <$> readDigits 0 rest
              end
            else Z.of_N <$> readDigits 0 (String c rest)).
    destruct (decide (c = "-"%char)) as [->|_]; [discriminate|].
    rewrite Hr. reflexivity.
  - change (readDecimal (String "-" s))
      with (match s with
            | EmptyString => None
            | _ => (λ n, - Z.of_N n) <$> readDigits 0 s
            end).
    destruct s as [|c rest]; [contradiction|]. rewrite Hr. reflexivity.
Qed.

(** The text [numberToString n] is the decimal numeral of [n]. *)
Lemma numberToString_decimal (n : Z) : readDecimal (numberToString n) = Some n.
Proof.
  unfold numberToString, pretty, pretty_Z. destruct n as [|p|p].
  - reflexivity.
  - unfold pretty, pretty_positive, pretty, pretty_N.
    destruct (decide (N.pos p = 0%N)) as [|_]; [discriminate|].
    pose proof (readDigits_pos p) as Hr.
    apply readDecimal_digits in Hr as [Hr _]; [exact Hr|].
    intros Hs. pose proof (readDigits_pos p) as Hr'. rewrite Hs in Hr'.
    discriminate.
  - unfold pretty, pretty_positive, pretty, pretty_N.
    destruct (decide (N.pos p = 0%N)) as [|_]; [discriminate|].
    pose proof (readDigits_pos p) as Hr.
    apply readDecimal_digits in Hr as [_ Hr]; [exact Hr|].
    intros Hs. pose proof (readDigits_pos p) as Hr'. rewrite Hs in Hr'.
    discriminate.
Qed.

End NumberRendering.

Section RetryProperties.
Import Js Retry.
Context {St T : Type}.
Variable fn : St → Settled T * St.
Variable o : RetryOptions.

Abbreviation nextDelay := (Retry.nextDelay o).
Abbreviation runEvents := (Retry.runEvents o).

Lemma stateAfter_shift s k :
  stateAfter fn s (S k) = stateAfter fn (snd (fn s)) k.
Proof.
  induction k as [|k IH]; [reflexivity|].
  change (stateAfter fn s (S (S k))) with (snd (fn (stateAfter fn s (S k)))).
  rewrite IH. reflexivity.
Qed.

Lemma outcomeOf_shift s k :
  outcomeOf fn s (S k) = outcomeOf fn (snd (fn s)) k.
Proof. unfold outcomeOf. rewrite stateAfter_shift. reflexivity. Qed.

Lemma runEvents_succ d j :
  runEvents d (S j) = [Invoke; Sleep d] ++ runEvents (nextDelay d) j.
Proof.
  unfold Retry.runEvents. rewrite <- cons_seq. cbn [flat_map Nat.iter].
  rewrite <- (fmap_S_seq 0 j).
  replace (flat_map (λ i, [Invoke; Sleep (Nat.iter i nextDelay d)]) (S <$> seq 0 j))
    with (flat_map (λ i, [Invoke; Sleep (Nat.iter i nextDelay (nextDelay d))]) (seq 0 j)).
  { reflexivity. }
  induction (seq 0 j) as [|i l IH]; [reflexivity|].
  cbn [fmap list_fmap flat_map]. rewrite IH.
  rewrite (Nat.iter_succ_r i nextDelay d). reflexivity.
Qed.

(** The loop, entered at attempt [k ≤ maxAttempts] with enough fuel, makes
    some number [j] of failed attempts that it retries, then ends on call
    [j + 1]: either that call fulfils, or it is the last permitted attempt
    and it rejects. *)
Lemma loop_run fuel : ∀ (k : nat) d le s,
  Z.of_nat k ≤ maxAttempts o →
  (Z.to_nat (maxAttempts o - Z.of_nat k) < fuel)%nat →
  ∃ (j : nat) c,
    loop fn o fuel (Z.of_nat k) d le s
      = Some (c, stateAfter fn s (S j), runEvents d j) ∧
    Z.of_nat (k + j) ≤ maxAttempts o ∧
    (∀ i, (i < j)%nat → is_rejected (outcomeOf fn s i) = true) ∧
    ((∃ v, outcomeOf fn s j = Fulfilled v ∧ c = Return v) ∨
     (∃ e, outcomeOf fn s j = Rejected e ∧
           Z.of_nat (k + j) = maxAttempts o ∧
           c = Throw (Some (maxAttemptsError (maxAttempts o) e)))).
Proof.
  induction fuel as [|fuel IH]; intros k d le s Hk Hfuel; [lia|].
  cbn [loop].
  destruct (Z.leb_spec (Z.of_nat k) (maxAttempts o)) as [_|]; [|lia].
  destruct (fn s) as [[v|e] s'] eqn:Hfn.
  - exists 0%nat, (Return v). unfold outcomeOf. cbn [stateAfter]. rewrite Hfn.
    repeat split; [lia | intros; lia | left; eauto].
  - destruct (Z.eqb_spec (Z.of_nat k) (maxAttempts o)) as [Heq|Hne].
    + exists 0%nat, (Throw (Some (maxAttemptsError (maxAttempts o) e))).
      unfold outcomeOf. cbn [stateAfter]. rewrite Hfn.
      repeat split; [lia | intros; lia | right; exists e; repeat split; lia].
    + destruct (IH (S k) (nextDelay d) (Some e) s') as (j & c & Hrun & Hle & Hrej & Hend);
        [lia | lia |].
      exists (S j), c.
      replace (Z.of_nat k + 1) with (Z.of_nat (S k)) by lia.
      unfold Retry.nextDelay in Hrun. rewrite Hrun. cbn [extend].
      rewrite runEvents_succ, !stateAfter_shift, Hfn. cbn [snd].
      rewrite <- stateAfter_shift.
      split; [reflexivity|]. split; [lia|]. split.
      * intros [|i] Hi; [unfold outcomeOf; cbn [stateAfter]; rewrite Hfn; reflexivity|].
        rewrite outcomeOf_shift, Hfn. apply Hrej. lia.
      * rewrite outcomeOf_shift, Hfn. cbn [snd].
        replace (k + S j)%nat with (S k + j)%nat by lia. exact Hend.
Qed.

Lemma invocations_runEvents d j : invocations (runEvents d j) = S j.
Proof.
  revert d. induction j as [|j IH]; intros d; [reflexivity|].
  rewrite runEvents_succ. unfold invocations in *.
  rewrite filter_app, length_app, IH. reflexivity.
Qed.

Lemma sleeps_runEvents d j :
  sleeps (runEvents d j) = (λ i, Nat.iter i nextDelay d) <$> seq 0 j.
Proof.
  revert d. induction j as [|j IH]; intros d; [reflexivity|].
  rewrite runEvents_succ. unfold sleeps in *. cbn [app omap list_omap].
  rewrite IH, <- cons_seq, <- (fmap_S_seq 0 j). cbn [fmap list_fmap Nat.iter].
  f_equal. rewrite <- list_fmap_compose. apply list_fmap_ext.
  intros _ i _. cbn. rewrite <- (Nat.iter_succ_r i nextDelay d). reflexivity.
Qed.

Lemma retry_total s :
  ∃ c j, retryWithBackoff fn o s
         = Some (c, stateAfter fn s j,
                 if decide (1 ≤ maxAttempts o)
                 then runEvents (initialDelay o) (pred j) else []).
Proof.
  unfold retryWithBackoff. destruct (decide (1 ≤ maxAttempts o)) as [Hn|Hn].
  - destruct (loop_run (S (Z.to_nat (maxAttempts o))) 1 (initialDelay o) None s)
      as (j & c & Hrun & _); [lia | lia |].
    exists c, (S j). exact Hrun.
  - exists (Throw None), 0%nat. cbn [loop].
    destruct (Z.leb_spec 1 (maxAttempts o)); [lia | reflexivity].
Qed.

(** C10.  With [maxAttempts < 1] the loop body never runs: [fn] is not
    called, nothing is awaited, the state is untouched, and the promise
    rejects with the uninitialised [lastError], i.e. [undefined]. *)
Theorem retry_no_attempts s :
  maxAttempts o < 1 →
  retryWithBackoff fn o s = Some (Throw None, s, []).
Proof.
  intros Hn. unfold retryWithBackoff. cbn [loop].
  destruct (Z.leb_spec 1 (maxAttempts o)); [lia | reflexivity].
Qed.

(** C3.  With [maxAttempts = n ≥ 1] and a function that rejects on every
    call, the function is called exactly [n] times and the driver rejects
    with an [Error] whose message is ["Max retry attempts ("], the decimal
    numeral of [n], [") reached. Last error: "], and the message of the
    error of the last (n-th) call. *)
Theorem retry_always_failing s :
  1 ≤ maxAttempts o →
  (∀ s', is_rejected (fst (fn s')) = true) →
  ∃ tr e shown,
    retryWithBackoff fn o s
      = Some (Throw (Some (mkError
                ("Max retry attempts (" +:+ shown +:+
                 ") reached. Last error: " +:+ message e))),
              stateAfter fn s (Z.to_nat (maxAttempts o)), tr) ∧
    readDecimal shown = Some (maxAttempts o) ∧
    invocations tr = Z.to_nat (maxAttempts o) ∧
    outcomeOf fn s (Z.to_nat (maxAttempts o) - 1) = Rejected e.
Proof.
  intros Hn Hfail. unfold retryWithBackoff.
  destruct (loop_run (S (Z.to_nat (maxAttempts o))) 1 (initialDelay o) None s)
    as (j & c & Hrun & Hle & _ & Hend); [lia | lia |].
  destruct Hend as [(v & Hv & _) | (e & He & Hj & ->)].
  - specialize (Hfail (stateAfter fn s j)). unfold outcomeOf in Hv.
    rewrite Hv in Hfail. discriminate.
  - exists (runEvents (initialDelay o) j), e, (numberToString (maxAttempts o)).
    change (Z.of_nat 1) with 1 in Hrun. rewrite Hrun.
    replace (Z.to_nat (maxAttempts o)) with (S j) by lia.
    rewrite invocations_runEvents. replace (S j - 1)%nat with j by lia.
    split; [reflexivity|]. split; [apply numberToString_decimal|].
    split; [reflexivity | exact He].
Qed.

(** The value of [delay] during attempt [i + 1] is what the specification
    prescribes, provided the initial delay does not exceed the cap. *)
Lemma delay_closed_form i :
  1 < factor o → initialDelay o ≤ maxDelay o →
  Nat.iter i nextDelay (initialDelay o) = specDelay o (Z.of_nat (S i)).
Proof.
  intros Hf Hcap. unfold specDelay. induction i as [|i IH].
  - change (Nat.iter 0 nextDelay (initialDelay o)) with (initialDelay o).
    replace (Z.of_nat 1 - 1) with 0 by lia.
    rewrite Z.pow_0_r. lia.
  - rewrite Nat.iter_succ, IH. unfold Retry.nextDelay.
    replace (Z.of_nat (S (S i)) - 1) with (Z.succ (Z.of_nat (S i) - 1)) by lia.
    rewrite Z.pow_succ_r by lia.
    assert (Hp : 1 ≤ factor o ^ (Z.of_nat (S i) - 1)).
    { apply (Z.pow_le_mono_r (factor o) 0); lia. }
    set (p := factor o ^ (Z.of_nat (S i) - 1)) in *. clearbody p.
    replace (initialDelay o * (factor o * p))
      with (initialDelay o * p * factor o) by ring.
    assert (Ha : maxDelay o < 0 → initialDelay o * p ≤ initialDelay o) by nia.
    set (a := initialDelay o * p) in *. clearbody a.
    destruct (Z.le_gt_cases a (maxDelay o)) as [Hle|Hgt].
    + rewrite (Z.min_l a) by lia. reflexivity.
    + assert (0 ≤ maxDelay o) by lia.
      assert (maxDelay o ≤ maxDelay o * factor o) by nia.
      assert (maxDelay o ≤ a * factor o) by nia.
      rewrite (Z.min_r a) by lia. rewrite !Z.min_r by lia. reflexivity.
Qed.

Lemma runEvents_specSchedule j :
  1 < factor o → initialDelay o ≤ maxDelay o →
  runEvents (initialDelay o) j = specSchedule o j.
Proof.
  intros Hf Hcap. unfold Retry.runEvents, specSchedule. f_equal.
  rewrite <- (fmap_S_seq 0 j).
  induction (seq 0 j) as [|i l IH]; [reflexivity|].
  cbn [fmap list_fmap flat_map]. rewrite IH, delay_closed_form by assumption.
  reflexivity.
Qed.

(** C7, as the code has it.  With [maxAttempts ≥ 1], [factor > 1] and
    [initialDelay ≤ maxDelay]: the driver makes some number [j] of failed
    attempts that it retries; after failed attempt [i] (1-indexed,
    [i ≤ j < maxAttempts]) it awaits a timer of exactly
    [min (initialDelay * factor^(i-1)) maxDelay] milliseconds and only
    then makes attempt [i + 1]; it stops at attempt [j + 1], which either
    fulfils or is attempt number [maxAttempts]. *)
Theorem retry_backoff_schedule s :
  1 ≤ maxAttempts o → 1 < factor o → initialDelay o ≤ maxDelay o →
  ∃ (j : nat) c,
    retryWithBackoff fn o s
      = Some (c, stateAfter fn s (S j), specSchedule o j) ∧
    Z.of_nat j < maxAttempts o ∧
    (∀ i, (i < j)%nat → is_rejected (outcomeOf fn s i) = true) ∧
    (is_fulfilled (outcomeOf fn s j) = true ∨ Z.of_nat (S j) = maxAttempts o).
Proof.
  intros Hn Hf Hcap. unfold retryWithBackoff.
  destruct (loop_run (S (Z.to_nat (maxAttempts o))) 1 (initialDelay o) None s)
    as (j & c & Hrun & Hle & Hrej & Hend); [lia | lia |].
  exists j, c. change (Z.of_nat 1) with 1 in Hrun.
  rewrite Hrun, runEvents_specSchedule by assumption.
  split; [reflexivity|]. split; [lia|]. split; [exact Hrej|].
  destruct Hend as [(v & -> & _) | (e & _ & Hj & _)]; [left; reflexivity | right; lia].
Qed.

End RetryProperties.

Import Examples.

Lemma retry_no_attempts_witness :
  Retry.retryWithBackoff (alwaysFail "fail")
    (Retry.mkRetryOptions 0 100 5000 2) 0%nat
  = Some (Retry.Throw None, 0%nat, []).
Proof.
  apply (retry_no_attempts (alwaysFail "fail") (Retry.mkRetryOptions 0 100 5000 2) 0%nat).
  simpl. lia.
Defined.

Lemma retry_always_failing_witness :
  ∃ tr e shown,
    Retry.retryWithBackoff (alwaysFail "fail") Retry.defaultOptions 0%nat
      = Some (Retry.Throw (Some (Js.mkError
                ("Max retry attempts (" +:+ shown +:+
                 ") reached. Last error: " +:+ Js.message e))),
              3%nat, tr) ∧
    Js.readDecimal shown = Some 3 ∧
    Retry.invocations tr = 3%nat ∧
    Retry.outcomeOf (alwaysFail "fail") 0%nat 2 = Js.Rejected e.
Proof.
  apply (retry_always_failing (alwaysFail "fail") Retry.defaultOptions 0%nat).
  - simpl. lia.
  - intros s'. reflexivity.
Defined.

(** The same run, with the message spelled out. *)
Example retry_always_failing_message :
  Retry.retryWithBackoff (alwaysFail "fail") Retry.defaultOptions 0%nat
  = Some (Retry.Throw (Some (Js.mkError
            "Max retry attempts (3) reached. Last error: fail")),
          3%nat,
          [Retry.Invoke; Retry.Sleep 100; Retry.Invoke; Retry.Sleep 200;
           Retry.Invoke]).
Proof. vm_compute. reflexivity. Qed.

Lemma retry_backoff_schedule_witness :
  ∃ (j : nat) c,
    Retry.retryWithBackoff (alwaysFail "fail") Retry.defaultOptions 0%nat
      = Some (c, Retry.stateAfter (alwaysFail "fail") 0%nat (S j),
              Retry.specSchedule Retry.defaultOptions j) ∧
    Z.of_nat j < 3 ∧
    (∀ i, (i < j)%nat →
       Js.is_rejected (Retry.outcomeOf (alwaysFail "fail") 0%nat i) = true) ∧
    (Js.is_fulfilled (Retry.outcomeOf (alwaysFail "fail") 0%nat j) = true
     ∨ Z.of_nat (S j) = 3).
Proof.
  apply (retry_backoff_schedule (alwaysFail "fail") Retry.defaultOptions 0%nat);
    simpl; lia.
Defined.

(** C7 as stated fails when [initialDelay > maxDelay]: the pause after the
    first failed attempt is the unclamped [initialDelay], here 10000 ms,
    where the stated formula gives [min (10000 * 2^0) 5000 = 5000]. *)
Lemma retry_first_sleep_unclamped :
  let o := Retry.mkRetryOptions 3 10000 5000 2 in
  1 ≤ Retry.maxAttempts o ∧ 1 < Retry.factor o ∧
  ∃ c s' tr,
    Retry.retryWithBackoff (alwaysFail "fail") o 0%nat = Some (c, s', tr) ∧
    tr = [Retry.Invoke; Retry.Sleep 10000; Retry.Invoke; Retry.Sleep 5000;
          Retry.Invoke] ∧
    Retry.sleeps tr !! 0%nat = Some 10000 ∧
    Retry.specDelay o 1 = 5000.
Proof.
  cbn zeta. split; [simpl; lia|]. split; [simpl; lia|].
  eexists _, _, _. split; [vm_compute; reflexivity|].
  split; [reflexivity|]. split; reflexivity.
Qed.

(** ** Rate limiter *)

Section RateLimitProperties.
Import RateLimit.

Lemma check_opens now key l :
  startsWindow now (requests l !! key) = true →
  check now key l = openWindow now key l.
Proof.
  unfold check, startsWindow. destruct (requests l !! key) as [e|]; [|reflexivity].
  intros ->. reflexivity.
Qed.

Lemma check_other now key key' l :
  key ≠ key' →
  requests (snd (check now key' l)) !! key = requests l !! key ∧
  maxRequests (snd (check now key' l)) = maxRequests l ∧
  windowMs (snd (check now key' l)) = windowMs l.
Proof.
  intros Hne. unfold check, openWindow.
  destruct (requests l !! key') as [e|]; cbn.
  - destruct (now >? resetTime e); cbn.
    + rewrite lookup_insert_ne by congruence. auto.
    + destruct (count e >=? maxRequests l); cbn; [auto|].
      rewrite lookup_insert_ne by congruence. auto.
  - rewrite lookup_insert_ne by congruence. auto.
Qed.

(** Inside an open window, while the count stays within the limit, every
    check on [key] is allowed and bumps the count by one. *)
Lemma checks_in_window key R : ∀ calls l c,
  requests l !! key = Some (mkEntry c R) →
  Forall (λ call, snd call = key → fst call ≤ R) calls →
  c + Z.of_nat (checksOn key calls) ≤ maxRequests l →
  let '(rs, l') := checks calls l in
  requests l' !! key = Some (mkEntry (c + Z.of_nat (checksOn key calls)) R) ∧
  maxRequests l' = maxRequests l ∧ windowMs l' = windowMs l ∧
  Forall (λ kr, fst kr = key → allowed (snd kr) = true ∧ reset (snd kr) = R) rs.
Proof.
  induction calls as [|[now k] calls IH]; intros l c Hl Hin Hcnt.
  - cbn. rewrite Z.add_0_r. auto.
  - cbn [checks]. apply Forall_cons in Hin as [Hnow Hin].
    unfold checksOn in Hcnt |- *. rewrite filter_cons in Hcnt |- *. cbn [snd fst] in *.
    destruct (decide (k = key)) as [->|Hne].
    + specialize (Hnow eq_refl). cbn [length] in Hcnt |- *.
      unfold check. rewrite Hl. cbn [resetTime count].
      destruct (Z.gtb_spec now R) as [|_]; [lia|].
      destruct (Z.geb_spec c (maxRequests l)) as [|_]; [lia|].
      specialize (IH (setEntry key (mkEntry (c + 1) R) l) (c + 1)).
      cbn [setEntry requests maxRequests windowMs] in IH.
      rewrite lookup_insert_eq in IH.
      specialize (IH eq_refl Hin). unfold checksOn in IH.
      destruct (checks calls _) as [rs l'].
      destruct IH as (Hl' & Hm & Hw & Hrs); [lia|].
      rewrite Hl'. repeat split; [f_equal; f_equal; lia | assumption..|].
      apply Forall_cons. split; [|exact Hrs]. cbn. auto.
    + destruct (check now k l) as [r l1] eqn:Hck.
      pose proof (check_other now key k l (not_eq_sym Hne)) as (Hreq & Hm & Hw).
      rewrite Hck in Hreq, Hm, Hw. cbn [snd] in Hreq, Hm, Hw.
      specialize (IH l1 c). rewrite Hreq, Hm in IH.
      specialize (IH Hl Hin Hcnt). unfold checksOn in IH.
      destruct (checks calls l1) as [rs l'].
      destruct IH as (Hl' & Hm' & Hw' & Hrs).
      repeat split; [assumption | congruence | congruence |].
      apply Forall_cons. split; [cbn; congruence | exact Hrs].
Qed.

(** C4, for limits [maxRequests ≥ 1].  A check on [key] at time [t0] opens
    a window (no entry, or the stored one expired).  If, together with it,
    [maxRequests] checks on [key] are made inside that window (at times not
    after [t0 + windowMs]; checks on other keys may be interleaved), then
    all of them are allowed, and afterwards: a check inside the window is
    refused with [remaining = 0] and the unchanged reset time
    [t0 + windowMs] and changes nothing; a check after the reset time is
    allowed with [remaining = maxRequests - 1] and the fresh reset time
    [now + windowMs].  A window always holds the check that opened it, so
    the premise on the number of checks makes [maxRequests] at least 1;
    what a limit below 1 does is shown after the section. *)
Theorem rate_limit_window l key t0 calls :
  startsWindow t0 (requests l !! key) = true →
  Forall (λ call, snd call = key → fst call ≤ t0 + windowMs l) calls →
  Z.of_nat (checksOn key ((t0, key) :: calls)) = maxRequests l →
  let '(rs, l') := checks ((t0, key) :: calls) l in
  Forall (λ kr, fst kr = key → allowed (snd kr) = true) rs ∧
  (∀ now, now ≤ t0 + windowMs l →
     check now key l' = (mkResult false 0 (t0 + windowMs l), l')) ∧
  (∀ now, t0 + windowMs l < now →
     check now key l' =
       (mkResult true (maxRequests l - 1) (now + windowMs l),
        setEntry key (mkEntry 1 (now + windowMs l)) l')).
Proof.
  intros Hopen Hin Hcnt. cbn [checks]. rewrite (check_opens _ _ _ Hopen).
  unfold openWindow. cbn [resetTime].
  unfold checksOn in Hcnt. rewrite filter_cons in Hcnt. cbn [snd] in Hcnt.
  destruct (decide (key = key)) as [_|]; [|congruence]. cbn [length] in Hcnt.
  pose proof (checks_in_window key (t0 + windowMs l) calls
                (setEntry key (mkEntry 1 (t0 + windowMs l)) l) 1) as Hrun.
  cbn [setEntry requests maxRequests windowMs] in Hrun.
  rewrite lookup_insert_eq in Hrun. specialize (Hrun eq_refl Hin).
  unfold checksOn in Hrun.
  destruct (checks calls _) as [rs l'].
  destruct Hrun as (Hl' & Hm & Hw & Hrs); [lia|].
  split; [|split].
  - apply Forall_cons. split; [reflexivity|].
    eapply Forall_impl; [exact Hrs|]. cbn. intros kr H Hk. apply H, Hk.
  - intros now Hnow. unfold check. rewrite Hl'. cbn [resetTime count].
    destruct (Z.gtb_spec now (t0 + windowMs l)) as [|_]; [lia|].
    destruct (Z.geb_spec (1 + Z.of_nat (length (filter (λ c, snd c = key) calls)))
                (maxRequests l')) as [_|]; [reflexivity|lia].
  - intros now Hnow. unfold check. rewrite Hl'. cbn [resetTime].
    destruct (Z.gtb_spec now (t0 + windowMs l)) as [_|]; [|lia].
    unfold openWindow. rewrite Hm, Hw. reflexivity.
Qed.

Lemma setEntry_inv maxR win key e l :
  limiterInv maxR win l → 1 ≤ count e ≤ Z.max maxR 1 →
  limiterInv maxR win (setEntry key e l).
Proof.
  intros (Hm & Hw & Hb) He. unfold limiterInv, setEntry. cbn.
  split; [assumption|]. split; [assumption|].
  intros k e' Hk. destruct (decide (key = k)) as [->|Hne].
  - rewrite lookup_insert_eq in Hk. injection Hk as <-. exact He.
  - rewrite lookup_insert_ne in Hk by assumption. exact (Hb _ _ Hk).
Qed.

Lemma check_inv maxR win now key l :
  limiterInv maxR win l → limiterInv maxR win (snd (check now key l)).
Proof.
  intros Hl. pose proof Hl as (Hm & Hw & Hb). unfold check, openWindow.
  destruct (requests l !! key) as [e|] eqn:He.
  - destruct (now >? resetTime e); cbn [snd].
    + apply setEntry_inv; [assumption | cbn; lia].
    + destruct (Z.geb_spec (count e) (maxRequests l)); cbn [snd]; [assumption|].
      apply setEntry_inv; [assumption|]. cbn. pose proof (Hb _ _ He). lia.
  - cbn [snd]. apply setEntry_inv; [assumption | cbn; lia].
Qed.

Lemma checks_inv maxR win calls : ∀ l,
  limiterInv maxR win l → limiterInv maxR win (snd (checks calls l)).
Proof.
  induction calls as [|[now key] calls IH]; intros l Hl; [exact Hl|].
  cbn [checks]. pose proof (check_inv maxR win now key l Hl) as H1.
  destruct (check now key l) as [r l1]. cbn [snd] in H1.
  specialize (IH l1 H1). destruct (checks calls l1) as [rs l2]. exact IH.
Qed.

(** C9.  In every state [l] a limiter [new maxR win] can reach through
    [check]: each stored count is at most [max maxR 1]; a check on a key
    with no entry or an expired one stores count 1 and is allowed, whatever
    [maxR] is (also 0 or negative); a check inside the window adds one to
    the count exactly when the count is below [maxR] and otherwise leaves
    the entry as it is. *)
Theorem rate_count_bounded (maxR win : Z) (calls : list (Z * string)) :
  let l := snd (checks calls (new maxR win)) in
  (∀ key e, requests l !! key = Some e → count e ≤ Z.max maxR 1) ∧
  (∀ now key, startsWindow now (requests l !! key) = true →
     allowed (fst (check now key l)) = true ∧
     requests (snd (check now key l)) !! key = Some (mkEntry 1 (now + win))) ∧
  (∀ now key e, requests l !! key = Some e → now ≤ resetTime e →
     requests (snd (check now key l)) !! key
     = Some (if count e <? maxR then mkEntry (count e + 1) (resetTime e) else e)).
Proof.
  cbn zeta.
  assert (Hinv : limiterInv maxR win (snd (checks calls (new maxR win)))).
  { apply checks_inv. unfold limiterInv, new. cbn. repeat split; try reflexivity.
    all: rewrite lookup_empty in H; discriminate. }
  destruct Hinv as (Hm & Hw & Hb).
  set (l := snd (checks calls (new maxR win))) in *. clearbody l.
  split; [|split].
  - intros key e He. apply (Hb _ _ He).
  - intros now key Hopen. rewrite (check_opens _ _ _ Hopen).
    unfold openWindow. cbn. rewrite lookup_insert_eq, Hw. auto.
  - intros now key e He Hnow. unfold check. rewrite He.
    destruct (Z.gtb_spec now (resetTime e)) as [|_]; [lia|].
    rewrite Hm.
    destruct (Z.geb_spec (count e) maxR), (Z.ltb_spec (count e) maxR); try lia.
    + exact He.
    + cbn. rewrite lookup_insert_eq. reflexivity.
Qed.

End RateLimitProperties.

Lemma rate_limit_window_witness :
  let '(rs, l') :=
    RateLimit.checks [(1000, "ip-1"); (1500, "ip-2"); (2000, "ip-1")]
      (RateLimit.new 2 60000) in
  Forall (λ kr, fst kr = "ip-1" → RateLimit.allowed (snd kr) = true) rs ∧
  (∀ now, now ≤ 1000 + 60000 →
     RateLimit.check now "ip-1" l' = (RateLimit.mkResult false 0 (1000 + 60000), l')) ∧
  (∀ now, 1000 + 60000 < now →
     RateLimit.check now "ip-1" l' =
       (RateLimit.mkResult true (2 - 1) (now + 60000),
        RateLimit.setEntry "ip-1" (RateLimit.mkEntry 1 (now + 60000)) l')).
Proof.
  apply (rate_limit_window (RateLimit.new 2 60000) "ip-1" 1000
           [(1500, "ip-2"); (2000, "ip-1")]).
  - reflexivity.
  - repeat (constructor; [cbn; intros _; lia|]). constructor.
  - reflexivity.
Defined.

(** With the limit [maxRequests = 0] the claim of C4 fails as it is
    written.  On a new limiter the [maxRequests] allowed checks on the key
    have been made, there being none to make; yet the next check is not
    refused with [remaining = 0]: it is allowed, with [remaining = -1], and
    opens a window.  Only the check after it, inside that window, is
    refused. *)
Lemma rate_limit_zero_limit_allows :
  let l := RateLimit.new 0 60000 in
  let '(rs, l') := RateLimit.checks [] l in
  Z.of_nat (length (filter (λ kr, RateLimit.allowed (snd kr) = true) rs))
    = RateLimit.maxRequests l ∧
  fst (RateLimit.check 1000 "ip-1" l') = RateLimit.mkResult true (-1) 61000 ∧
  fst (RateLimit.check 1000 "ip-1" l') ≠ RateLimit.mkResult false 0 61000 ∧
  RateLimit.allowed (fst (RateLimit.check 1000 "ip-1" l')) ≠ false ∧
  fst (RateLimit.check 1001 "ip-1" (snd (RateLimit.check 1000 "ip-1" l')))
    = RateLimit.mkResult false 0 61000.
Proof.
  cbn zeta. split; [reflexivity|]. split; [reflexivity|].
  split; [discriminate|]. split; [discriminate | reflexivity].
Qed.

(** ** Idempotency cache *)

Section IdempotencyProperties.
Import Idempotency.
Context {Response : Type}.
Implicit Types (c : IdempotencyCache Response) (v : Response).

(** C5.  [get key], [t] milliseconds after [set key v], returns [v] and
    keeps the entry when [t ≤ ttl]; when [t > ttl] it returns [undefined]
    and has deleted the entry.  So it returns [v] iff [t ≤ ttl]. *)
Theorem idempotency_get_after_set c key v (t0 t : Z) :
  (t ≤ ttl c → get (t0 + t) key (set t0 key v c) = (Some v, set t0 key v c)) ∧
  (ttl c < t →
     fst (get (t0 + t) key (set t0 key v c)) = None ∧
     cache (snd (get (t0 + t) key (set t0 key v c))) !! key = None) ∧
  (fst (get (t0 + t) key (set t0 key v c)) = Some v ↔ t ≤ ttl c).
Proof.
  unfold get, set. cbn [cache ttl]. rewrite lookup_insert_eq. cbn [timestamp response].
  replace (t0 + t - t0) with t by lia.
  destruct (Z.gtb_spec t (ttl c)) as [Hgt|Hle]; cbn [fst snd cache].
  - rewrite lookup_delete_eq. repeat split; try (intros; lia); try discriminate.
  - repeat split; try (intros; lia); auto.
Qed.

End IdempotencyProperties.

(** ** Anthropic adapter *)

Section AnthropicProperties.
Import Base Anthropic.

Lemma find_system_split pre m post :
  Forall (λ x, role x ≠ system) pre → role m = system →
  List.find isSystem (pre ++ m :: post) = Some m.
Proof.
  intros Hpre Hm. induction Hpre as [|x pre Hx _ IH]; cbn.
  - unfold isSystem. rewrite bool_decide_eq_true_2 by assumption. reflexivity.
  - unfold isSystem at 1. rewrite bool_decide_eq_false_2 by assumption. exact IH.
Qed.

Lemma filter_non_system ms :
  Forall (λ x, role x ≠ system) ms →
  List.filter (λ m, negb (isSystem m)) ms = ms.
Proof.
  intros H. induction H as [|x ms Hx _ IH]; [reflexivity|]. cbn.
  unfold isSystem at 1. rewrite bool_decide_eq_false_2 by assumption.
  cbn. rewrite IH. reflexivity.
Qed.

Lemma find_non_system ms :
  Forall (λ x, role x ≠ system) ms → List.find isSystem ms = None.
Proof.
  intros H. induction H as [|x ms Hx _ IH]; [reflexivity|]. cbn.
  unfold isSystem at 1. rewrite bool_decide_eq_false_2 by assumption. exact IH.
Qed.

Lemma withoutFirstSystem_split pre m post :
  Forall (λ x, role x ≠ system) pre → role m = system →
  withoutFirstSystem (pre ++ m :: post) = pre ++ post.
Proof.
  intros Hpre Hm. induction Hpre as [|x pre Hx _ IH]; cbn.
  - unfold isSystem. rewrite bool_decide_eq_true_2 by assumption. reflexivity.
  - unfold isSystem at 1. rewrite bool_decide_eq_false_2 by assumption.
    rewrite IH. reflexivity.
Qed.

(** C8, as the code has it.  The content of the first system message (if
    any) becomes the [system] directive; the messages whose role is not
    [system] are forwarded in their original order, and every system
    message is left out of the forwarded list; so when the request has at
    most one system message, the forwarded list is exactly the remaining
    messages.  [max_tokens] is the request's [maxTokens], or 4096 when that
    is unset. *)
Theorem anthropic_params (request : ChatRequest) :
  let p := createParams request in
  (∀ pre m post,
     messages request = pre ++ m :: post →
     Forall (λ x, role x ≠ system) pre → role m = system →
     p_system p = Some (content m) ∧
     p_messages p = pre ++ List.filter (λ x, negb (isSystem x)) post ∧
     (Forall (λ x, role x ≠ system) post →
      p_messages p = pre ++ post ∧
      p_messages p = withoutFirstSystem (messages request))) ∧
  (Forall (λ x, role x ≠ system) (messages request) →
     p_system p = None ∧ p_messages p = messages request) ∧
  (maxTokens request = None → max_tokens p = 4096) ∧
  (∀ n, maxTokens request = Some n → max_tokens p = n) ∧
  p_model p = model request.
Proof.
  cbn zeta. unfold createParams. cbn [p_system p_messages max_tokens p_model].
  split; [|split; [|split; [|split]]].
  - intros pre m post Hsplit Hpre Hm. rewrite Hsplit.
    assert (Hfwd : List.filter (λ x, negb (isSystem x)) (pre ++ m :: post)
                   = pre ++ List.filter (λ x, negb (isSystem x)) post).
    { rewrite List.filter_app. cbn [List.filter].
      unfold isSystem at 2. rewrite bool_decide_eq_true_2 by assumption.
      cbn. rewrite filter_non_system by assumption. reflexivity. }
    split; [|split].
    + rewrite find_system_split by assumption. reflexivity.
    + exact Hfwd.
    + intros Hpost. rewrite Hfwd, filter_non_system by assumption.
      rewrite withoutFirstSystem_split by assumption. split; reflexivity.
  - intros Hnone. split.
    + rewrite find_non_system by assumption. reflexivity.
    + apply filter_non_system. assumption.
  - intros ->. reflexivity.
  - intros n ->. reflexivity.
  - reflexivity.
Qed.

End AnthropicProperties.

(** C8 as stated fails on a request with two system messages: the second
    one is among the remaining messages but is not forwarded. *)
Lemma anthropic_drops_later_system :
  let request :=
    Base.mkChatRequest "claude-3"
      [Base.mkMessage Base.system "a"; Base.mkMessage Base.user "hi";
       Base.mkMessage Base.system "b"] None None None in
  Anthropic.p_system (Anthropic.createParams request) = Some "a" ∧
  Anthropic.p_messages (Anthropic.createParams request)
    = [Base.mkMessage Base.user "hi"] ∧
  Anthropic.withoutFirstSystem (Base.messages request)
    = [Base.mkMessage Base.user "hi"; Base.mkMessage Base.system "b"] ∧
  Anthropic.p_messages (Anthropic.createParams request)
    ≠ Anthropic.withoutFirstSystem (Base.messages request).
Proof. cbn zeta. repeat split; try reflexivity. discriminate. Qed.

(** ** Circuit breaker *)

Section BreakerProperties.
Import Js Base Breaker.
Context {Upstream : Type}.
Variable minimumSamples : Z.
Variable timeoutError : Error.


End BreakerProperties.


(** Once [resetTimeout] has elapsed the same breaker admits a probe.  The
    wrapped function resolves, with a failed result; the breaker takes the
    resolved promise for a success and closes. *)
Example breaker_probe_after_reset :
  Breaker.fire 5 (Js.mkError "timeout")
    (Breaker.createCircuitBreaker unavailableCall Service.defaultBreakerOptions)
    61000 request (openBreaker 1000) 7%nat
  = {| Breaker.settled :=
         Js.Fulfilled (Base.Failure (Js.mkError "503 Service Unavailable") true);
       Breaker.after := Breaker.mkBreaker Breaker.Closed 0 0 None;
       Breaker.upstream := 8%nat; Breaker.invoked := 1;
       Breaker.emitted := [Breaker.EvHalfOpen; Breaker.EvClose] |}.
Proof. reflexivity. Qed.

(** ** Orchestrator *)

Section ServiceProperties.
Import Js Base Retry Service.
Context {World : Type}.

(** C1, as the code has it.  For every request and registered provider:
    when the breaker-protected call resolves with a failed result, [chat]
    ends at that first attempt, whatever the [retryable] flag says.
    [retryWithBackoff] returns a fulfilled value as it is, no timer is
    awaited, no second call is made, and [chat] throws the error of the
    result.  A result marked [retryable = true] is therefore not retried. *)
Theorem chat_failed_result_not_retried (svc : LLMService World) request providerName
    provider breaker w e r w' :
  providers svc !! default (defaultProvider svc) providerName = Some provider →
  circuitBreakers svc !! name provider = Some breaker →
  fire breaker request w = (Fulfilled (Failure e r), w') →
  chat svc request providerName w = Some (Throw (Some e), w', [Invoke]).
Proof.
  intros Hp Hb Hfire. unfold chat. rewrite Hp, Hb.
  unfold retryWithBackoff, chatRetryOptions. cbn [maxAttempts Z.to_nat loop].
  cbn. rewrite Hfire. reflexivity.
Qed.

Lemma chat_success (svc : LLMService World) request providerName
    provider breaker w data w' :
  providers svc !! default (defaultProvider svc) providerName = Some provider →
  circuitBreakers svc !! name provider = Some breaker →
  fire breaker request w = (Fulfilled (Success data), w') →
  chat svc request providerName w = Some (Return data, w', [Invoke]).
Proof.
  intros Hp Hb Hfire. unfold chat. rewrite Hp, Hb.
  unfold retryWithBackoff, chatRetryOptions. cbn [maxAttempts Z.to_nat loop].
  cbn. rewrite Hfire. reflexivity.
Qed.

(** Only a rejected [fire] is retried. *)
Lemma chat_rejections_retried (svc : LLMService World) request providerName
    provider breaker w :
  providers svc !! default (defaultProvider svc) providerName = Some provider →
  circuitBreakers svc !! name provider = Some breaker →
  (∀ w0, is_rejected (fst (fire breaker request w0)) = true) →
  ∃ e, chat svc request providerName w
       = Some (Throw (Some e),
               stateAfter (fire breaker request) w 3,
               [Invoke; Sleep 100; Invoke; Sleep 200; Invoke]).
Proof.
  intros Hp Hb Hrej. unfold chat. rewrite Hp, Hb.
  unfold retryWithBackoff, chatRetryOptions.
  change (stateAfter (fire breaker request) w 3)
    with (snd (fire breaker request
            (snd (fire breaker request (snd (fire breaker request w)))))).
  pose proof (Hrej w) as H1.
  destruct (fire breaker request w) as [[v|e1] w1] eqn:E1; [discriminate|].
  pose proof (Hrej w1) as H2. cbn [snd].
  destruct (fire breaker request w1) as [[v|e2] w2] eqn:E2; [discriminate|].
  pose proof (Hrej w2) as H3. cbn [snd].
  destruct (fire breaker request w2) as [[v|e3] w3] eqn:E3; [discriminate|].
  eexists. change (Z.to_nat _) with 3%nat.
  cbn. rewrite E1. cbn. rewrite E2. cbn. rewrite E3. reflexivity.
Qed.

End ServiceProperties.

(** The service is built as [buildServer] builds it; the default provider
    answers every call with a failed result marked [retryable = true]; its
    breaker is closed.  [chat] calls the provider once, awaits no timer, and
    throws the provider's error. *)
Lemma chat_failed_result_not_retried_witness :
  Service.chat
    (Wiring.buildService 5 (Js.mkError "timeout") [unavailable] "openai")
    request None (Wiring.mkWorld 0 ∅ 0%nat)
  = Some (Retry.Throw (Some (Js.mkError "503 Service Unavailable")),
          Wiring.mkWorld 0
            {[ "openai" := Breaker.mkBreaker Breaker.Closed 1 0 None ]} 1%nat,
          [Retry.Invoke]).
Proof.
  apply (chat_failed_result_not_retried
           (Wiring.buildService 5 (Js.mkError "timeout") [unavailable] "openai")
           request None
           (Wiring.lift unavailable)
           (Wiring.createCircuitBreaker 5 (Js.mkError "timeout") "openai"
              (λ req, Base.chat (Wiring.lift unavailable) req)
              Service.defaultBreakerOptions)
           (Wiring.mkWorld 0 ∅ 0%nat)
           (Js.mkError "503 Service Unavailable") true).
  - reflexivity.
  - reflexivity.
  - reflexivity.
Defined.

(** With the breaker of the default provider open, every fire rejects, so
    [chat] fires three times with the two pauses between, the provider is
    never called, and the retry driver's error is thrown. *)
Example chat_breaker_open :
  Service.chat
    (Wiring.buildService 5 (Js.mkError "timeout") [unavailable] "openai")
    request None (Wiring.mkWorld 30000 {[ "openai" := openBreaker 1000 ]} 0%nat)
  = Some (Retry.Throw (Some (Js.mkError
            "Max retry attempts (3) reached. Last error: Breaker is open")),
          Wiring.mkWorld 30000 {[ "openai" := openBreaker 1000 ]} 0%nat,
          [Retry.Invoke; Retry.Sleep 100; Retry.Invoke; Retry.Sleep 200;
           Retry.Invoke]).
Proof. vm_compute. reflexivity. Qed.

(** An unknown provider name is a fatal error; nothing is fired. *)
Example chat_provider_not_found :
  Service.chat
    (Wiring.buildService 5 (Js.mkError "timeout") [unavailable] "openai")
    request (Some "anthropic") (Wiring.mkWorld 0 ∅ 0%nat)
  = Some (Retry.Throw (Some (Js.mkError "Provider not found: anthropic")),
          Wiring.mkWorld 0 ∅ 0%nat, []).
Proof. vm_compute. reflexivity. Qed.

(** ** Request coalescer *)

Section CoalescingProperties.
Import Js Coalescing.
Context {TKey TResult : Type}.
Variable stringify : TKey → string.

Abbreviation State := (RequestCoalescer * Promises TResult)%type.
Abbreviation execute := (Coalescing.execute (TResult := TResult) stringify).
Abbreviation run := (Coalescing.run (TResult := TResult) stringify).
Abbreviation serializeKey := (Coalescing.serializeKey stringify).

Lemma execute_same keyStr p t0 key now (st : State) :
  sole keyStr p t0 st → serializeKey key = keyStr →
  now - t0 < windowMs (fst st) →
  execute key now st = (mkExecuted keyStr p false, st).
Proof.
  intros (Hp & _) Hk Hnow. unfold Coalescing.execute. rewrite Hk, Hp. cbn.
  destruct (Z.ltb_spec (now - t0) (windowMs (fst st))); [reflexivity | lia].
Qed.

Lemma execute_other keyStr p t0 key now (st : State) :
  sole keyStr p t0 st → serializeKey key ≠ keyStr →
  sole keyStr p t0 (snd (execute key now st)) ∧
  windowMs (fst (snd (execute key now st))) = windowMs (fst st) ∧
  key_str (fst (execute key now st)) ≠ keyStr.
Proof.
  intros (Hp & Hc & Hu & Hlt) Hk. unfold Coalescing.execute.
  assert (Hstart : sole keyStr p t0 (snd (startRequest (serializeKey key) now st))).
  { destruct st as [c h]. unfold sole, startRequest. cbn in *.
    rewrite lookup_insert_ne by assumption.
    rewrite lookup_insert_ne by lia. repeat split; try assumption; [|lia].
    intros q Hq. destruct (decide (made h = q)) as [<-|Hne].
    - rewrite lookup_insert_eq in Hq. congruence.
    - rewrite lookup_insert_ne in Hq by assumption. auto. }
  assert (Hw : windowMs (fst (snd (startRequest (serializeKey key) now st)))
               = windowMs (fst st)) by (destruct st; reflexivity).
  assert (Hks : key_str (fst (startRequest (serializeKey key) now st)) ≠ keyStr)
    by (destruct st; exact Hk).
  destruct (pending (fst st) !! serializeKey key) as [ex|]; [|auto].
  destruct (now - timestamp ex <? windowMs (fst st)); [|auto].
  cbn. unfold sole. auto.
Qed.

Lemma settle_other keyStr p t0 q r (st : State) :
  sole keyStr p t0 st → q ≠ p →
  sole keyStr p t0 (settle q r st) ∧
  windowMs (fst (settle q r st)) = windowMs (fst st).
Proof.
  intros (Hp & Hc & Hu & Hlt) Hq. destruct st as [c h]. unfold settle, sole.
  cbn in *. destruct (cleanup h !! q) as [k|] eqn:Hk; cbn; [|auto].
  assert (k ≠ keyStr) by (intros ->; apply Hq, Hu, Hk).
  rewrite lookup_delete_ne by assumption.
  rewrite lookup_delete_ne by assumption.
  repeat split; try assumption.
  intros q' Hq'. destruct (decide (q = q')) as [<-|Hne].
  - rewrite lookup_delete_eq in Hq'. discriminate.
  - rewrite lookup_delete_ne in Hq' by assumption. auto.
Qed.

Lemma run_during keyStr p t0 : ∀ steps (st : State),
  sole keyStr p t0 st →
  Forall (duringCall stringify (windowMs (fst st)) keyStr p t0) steps →
  sole keyStr p t0 (snd (run steps st)) ∧
  Forall (λ e, key_str e = keyStr → awaited e = p ∧ called e = false)
    (fst (run steps st)).
Proof.
  induction steps as [|[key now|q r] steps IH]; intros st Hsole Hsteps.
  - cbn. auto.
  - apply Forall_cons in Hsteps as [Hs Hsteps]. cbn [Coalescing.run].
    destruct (decide (serializeKey key = keyStr)) as [Hk|Hk].
    + rewrite (execute_same keyStr p t0 key now st Hsole Hk (Hs Hk)).
      specialize (IH st Hsole Hsteps). destruct (run steps st) as [es st2].
      cbn in *. destruct IH as [H1 H2]. split; [assumption|].
      apply Forall_cons. cbn. auto.
    + pose proof (execute_other keyStr p t0 key now st Hsole Hk) as (H1 & Hw & Hne).
      destruct (execute key now st) as [e st1]. cbn [fst snd] in *.
      rewrite <- Hw in Hsteps. specialize (IH st1 H1 Hsteps).
      destruct (run steps st1) as [es st2]. cbn in *.
      destruct IH as [H2 H3]. split; [assumption|].
      apply Forall_cons. split; [intros; contradiction | assumption].
  - apply Forall_cons in Hsteps as [Hs Hsteps]. cbn [Coalescing.run].
    cbn in Hs. pose proof (settle_other keyStr p t0 q r st Hsole Hs) as [H1 Hw].
    rewrite <- Hw in Hsteps. exact (IH _ H1 Hsteps).
Qed.

(** When the key has no entry and no call for it is in flight, the first
    caller's [fn] is invoked; every caller that arrives on the key within
    the window while that call is in flight awaits the same promise and
    invokes nothing; when the promise settles, the entry of the key is
    removed and the promise carries the outcome all of them observe. *)
Lemma coalesce_from_rest key t0 steps (st : State) :
  pending (fst st) !! serializeKey key = None →
  (∀ q, cleanup (snd st) !! q ≠ Some (serializeKey key)) →
  Forall (duringCall stringify (windowMs (fst st)) (serializeKey key)
            (made (snd st)) t0) steps →
  let '(e, st1) := execute key t0 st in
  let '(es, st2) := run steps st1 in
  e = mkExecuted (serializeKey key) (made (snd st)) true ∧
  Forall (λ e', key_str e' = key_str e → awaited e' = awaited e ∧ called e' = false) es ∧
  pending (fst st2) !! serializeKey key = Some (mkPending (awaited e) t0) ∧
  ∀ r, pending (fst (settle (awaited e) r st2)) !! serializeKey key = None ∧
       outcome (snd (settle (awaited e) r st2)) !! awaited e = Some r.
Proof.
  intros Hfree Hnone Hsteps. unfold Coalescing.execute. rewrite Hfree.
  set (keyStr := serializeKey key) in *. set (p := made (snd st)) in *.
  assert (Hsole : sole keyStr p t0 (snd (startRequest keyStr t0 st))).
  { subst p. destruct st as [c h]. unfold sole, startRequest. cbn in *.
    rewrite !lookup_insert_eq. repeat split; [|lia].
    intros q Hq. destruct (decide (made h = q)) as [<-|Hne]; [reflexivity|].
    rewrite lookup_insert_ne in Hq by assumption. destruct (Hnone _ Hq). }
  assert (Hw : windowMs (fst (snd (startRequest keyStr t0 st))) = windowMs (fst st))
    by (destruct st; reflexivity).
  assert (He : fst (startRequest keyStr t0 st) = mkExecuted keyStr p true)
    by (destruct st; reflexivity).
  destruct (startRequest keyStr t0 st) as [e st1]. cbn [fst snd] in *. subst e.
  rewrite <- Hw in Hsteps.
  pose proof (run_during keyStr p t0 steps st1 Hsole Hsteps) as [H1 H2].
  destruct (run steps st1) as [es [c2 h2]]. cbn [fst snd key_str awaited] in *.
  destruct H1 as (Hp & Hc & _ & _). cbn in *.
  repeat split; try assumption.
  - unfold settle. rewrite Hc. cbn. apply lookup_delete_eq.
  - unfold settle. rewrite Hc. cbn. apply lookup_insert_eq.
Qed.

End CoalescingProperties.

(** The test "should coalesce concurrent identical requests": five callers
    of one key on a new coalescer share one invocation and one promise. *)
Example coalesce_five_callers :
  fst (Coalescing.run (TKey := unit) (TResult := nat) (λ _, "null")
         [Coalescing.Execute (Coalescing.Str "key1") 0;
          Coalescing.Execute (Coalescing.Str "key1") 0;
          Coalescing.Execute (Coalescing.Str "key1") 1;
          Coalescing.Execute (Coalescing.Str "key1") 1;
          Coalescing.Execute (Coalescing.Str "key1") 2]
         (Coalescing.new 100, Coalescing.noPromises))
  = [Coalescing.mkExecuted "key1" 0 true; Coalescing.mkExecuted "key1" 0 false;
     Coalescing.mkExecuted "key1" 0 false; Coalescing.mkExecuted "key1" 0 false;
     Coalescing.mkExecuted "key1" 0 false].
Proof. vm_compute. reflexivity. Qed.

(** C2, evaluated on the code.  Window 100 ms.  Caller A arrives at 0;
    caller B at 150 finds A's entry older than the window and starts a call
    of its own (promise 1); A's promise settles at 160 and its cleanup
    deletes the entry of the key, which by then is B's; caller C at 170, 20 ms
    after B and with B's call still in flight, finds no entry and invokes
    [fn] again (promise 2).  B and C are concurrent callers of one key within
    the window of the first of them, [fn] runs once for each, and they await
    different promises. *)
Theorem coalesce_stale_cleanup_second_invocation :
  let steps :=
    [Coalescing.Execute (Coalescing.Str "k") 0;
     Coalescing.Execute (Coalescing.Str "k") 150;
     Coalescing.Settle 0 (Js.Fulfilled "a");
     Coalescing.Execute (Coalescing.Str "k") 170] in
  let '(es, st) :=
    Coalescing.run (TKey := unit) (TResult := string) (λ _, "null") steps
      (Coalescing.new 100, Coalescing.noPromises) in
  es = [Coalescing.mkExecuted "k" 0 true; Coalescing.mkExecuted "k" 1 true;
        Coalescing.mkExecuted "k" 2 true] ∧
  170 - 150 < Coalescing.windowMs (fst st) ∧
  Coalescing.cleanup (snd st) !! 1%nat = Some "k" ∧
  Coalescing.outcome (snd st) !! 1%nat = None ∧
  Coalescing.made (snd st) = 3%nat.
Proof. vm_compute. repeat split; reflexivity. Qed.

(* ===================================================================== *)
(** * Part III: further properties of the same code                       *)
(* ===================================================================== *)

(** ** Retry driver *)

Section RetryFurther.
Import Js Retry.
Context {St T : Type}.
Variable fn : St → Settled T * St.
Variable o : RetryOptions.

(** The events of a run are its pauses, each behind the call that failed
    before it, and one last call. *)
Lemma runEvents_alternate d j :
  Retry.runEvents o d j
  = flat_map (λ ms, [Invoke; Sleep ms]) (sleeps (Retry.runEvents o d j))
    ++ [Invoke].
Proof.
  rewrite sleeps_runEvents. unfold Retry.runEvents. f_equal.
  induction (seq 0 j) as [|i l IH]; [reflexivity|].
  cbn [flat_map fmap list_fmap]. rewrite IH. reflexivity.
Qed.

(** X1.  With [maxAttempts ≥ 1] the driver calls [fn] at least once and at
    most [maxAttempts] times and leaves the state the calls left.  What it
    does is, in order: for each of its pauses a call of [fn] and then that
    pause, and after them one last call; so exactly one timer is awaited
    between two consecutive calls, none before the first call and none
    after the last. *)
Theorem retry_attempts_bounded s :
  1 ≤ maxAttempts o →
  ∃ c tr,
    retryWithBackoff fn o s = Some (c, stateAfter fn s (invocations tr), tr) ∧
    tr = flat_map (λ ms, [Invoke; Sleep ms]) (sleeps tr) ++ [Invoke] ∧
    (1 ≤ invocations tr)%nat ∧
    Z.of_nat (invocations tr) ≤ maxAttempts o ∧
    S (base.length (sleeps tr)) = invocations tr ∧
    last tr = Some Invoke.
Proof.
  intros Hn. unfold retryWithBackoff.
  destruct (loop_run fn o (S (Z.to_nat (maxAttempts o))) 1 (initialDelay o) None s)
    as (j & c & Hrun & Hle & _ & _); [lia | lia |].
  exists c, (Retry.runEvents o (initialDelay o) j).
  change (Z.of_nat 1) with 1 in Hrun.
  split; [rewrite invocations_runEvents; exact Hrun|].
  split; [apply runEvents_alternate|].
  rewrite invocations_runEvents, sleeps_runEvents, length_fmap, length_seq.
  repeat split; [lia | lia |].
  unfold Retry.runEvents. apply last_snoc.
Qed.

(** X2.  If the first [k] calls reject, [k < maxAttempts], and call [k + 1]
    fulfils with [v], the driver returns [v] after exactly [k + 1] calls
    and [k] pauses; the earlier errors are dropped. *)
Theorem retry_succeeds_after_failures s (k : nat) v :
  Z.of_nat k < maxAttempts o →
  (∀ i, (i < k)%nat → is_rejected (outcomeOf fn s i) = true) →
  outcomeOf fn s k = Fulfilled v →
  ∃ tr,
    retryWithBackoff fn o s = Some (Return v, stateAfter fn s (S k), tr) ∧
    invocations tr = S k ∧
    base.length (sleeps tr) = k.
Proof.
  intros Hk Hrej Hv. unfold retryWithBackoff.
  destruct (loop_run fn o (S (Z.to_nat (maxAttempts o))) 1 (initialDelay o) None s)
    as (j & c & Hrun & Hle & Hrej' & Hend); [lia | lia |].
  change (Z.of_nat 1) with 1 in Hrun.
  assert (Hjk : j = k).
  { destruct (Nat.lt_trichotomy j k) as [Hlt | [Heq | Hgt]]; [|exact Heq|].
    - specialize (Hrej j Hlt).
      destruct Hend as [(v' & Hv' & _) | (e & _ & Hj & _)].
      + rewrite Hv' in Hrej. discriminate.
      + lia.
    - specialize (Hrej' k Hgt). rewrite Hv in Hrej'. discriminate. }
  subst j. destruct Hend as [(v' & Hv' & ->) | (e & He & _)].
  - rewrite Hv in Hv'. injection Hv' as <-.
    exists (Retry.runEvents o (initialDelay o) k).
    rewrite invocations_runEvents, sleeps_runEvents, length_fmap, length_seq.
    repeat split. exact Hrun.
  - rewrite Hv in He. discriminate.
Qed.

Lemma iter_nextDelay_capped i d :
  Nat.iter (S i) (Retry.nextDelay o) d ≤ maxDelay o.
Proof. rewrite Nat.iter_succ. unfold Retry.nextDelay. lia. Qed.

(** X3.  Whatever the options and whatever [fn] does: the first pause is
    [initialDelay], and every later pause is at most [maxDelay]. *)
Theorem retry_sleeps_capped s :
  ∃ c s' tr,
    retryWithBackoff fn o s = Some (c, s', tr) ∧
    ∀ (i : nat) d, sleeps tr !! i = Some d →
      (i = 0%nat → d = initialDelay o) ∧ ((0 < i)%nat → d ≤ maxDelay o).
Proof.
  destruct (retry_total fn o s) as (c & j & Hrun).
  eexists c, _, _. split; [exact Hrun|].
  intros i d Hi. destruct (decide (1 ≤ maxAttempts o)); [|discriminate].
  rewrite sleeps_runEvents, list_lookup_fmap in Hi.
  destruct (seq 0 (pred j) !! i) as [i'|] eqn:Hseq; [|discriminate].
  apply lookup_seq in Hseq as [-> _]. cbn in Hi. injection Hi as <-.
  split.
  - intros ->. reflexivity.
  - intros Hpos. destruct i as [|i]; [lia|]. apply iter_nextDelay_capped.
Qed.

End RetryFurther.

(** ** Rate limiter *)

Section RateLimitFurther.
Import RateLimit.

(** X4.  Keys do not interfere: a check on one key leaves the entry of any
    other key alone, so checks on two different keys give the same results
    and the same final limiter in either order. *)
Theorem rate_limit_keys_commute now key now' key' l :
  key ≠ key' →
  fst (check now key (snd (check now' key' l))) = fst (check now key l) ∧
  snd (check now key (snd (check now' key' l)))
  = snd (check now' key' (snd (check now key l))).
Proof.
  intros Hne.
  assert (Hne' : key' ≠ key) by congruence.
  destruct l as [m maxR win].
  unfold check, openWindow, setEntry. cbn [requests maxRequests windowMs].
  destruct (m !! key) as [e|] eqn:He; destruct (m !! key') as [e'|] eqn:He';
    try destruct (now >? resetTime e) eqn:Hexp;
    try destruct (count e >=? maxR) eqn:Hfull;
    try destruct (now' >? resetTime e') eqn:Hexp';
    try destruct (count e' >=? maxR) eqn:Hfull';
    cbn [fst snd requests maxRequests windowMs];
    rewrite ?lookup_insert_ne, ?He, ?He' by assumption;
    rewrite ?Hexp, ?Hfull, ?Hexp', ?Hfull';
    cbn [fst snd requests maxRequests windowMs];
    (split; [reflexivity|]); try reflexivity;
    f_equal; apply insert_insert_ne; assumption.
Qed.

(** X5.  For a limit of at least one, the [remaining] a limiter reports is
    never negative and is below the limit; a refused check reports 0; the
    reported reset time is that of the stored entry. *)
Theorem rate_limit_remaining_bounds (maxR win : Z) calls now key :
  1 ≤ maxR →
  let l := snd (checks calls (new maxR win)) in
  let r := fst (check now key l) in
  0 ≤ remaining r ≤ maxR - 1 ∧
  (allowed r = false → remaining r = 0) ∧
  ∃ e, requests (snd (check now key l)) !! key = Some e ∧
       reset r = resetTime e ∧
       (allowed r = true → remaining r = maxR - count e).
Proof.
  intros HmaxR. cbn zeta.
  assert (Hinv : limiterInv maxR win (snd (checks calls (new maxR win)))).
  { apply checks_inv. unfold limiterInv, new. cbn. repeat split; try reflexivity.
    all: rewrite lookup_empty in H; discriminate. }
  destruct Hinv as (Hm & Hw & Hb).
  set (l := snd (checks calls (new maxR win))) in *. clearbody l.
  unfold check, openWindow, setEntry. rewrite Hm, Hw.
  destruct (requests l !! key) as [e|] eqn:He.
  - pose proof (Hb _ _ He) as Hc.
    destruct (now >? resetTime e).
    + cbn. rewrite lookup_insert_eq. split; [lia|]. split; [discriminate|].
      eexists. split; [reflexivity|]. cbn. auto.
    + destruct (Z.geb_spec (count e) maxR).
      * cbn. split; [lia|]. split; [reflexivity|].
        exists e. split; [exact He|]. split; [reflexivity | discriminate].
      * cbn. rewrite lookup_insert_eq. split; [lia|]. split; [discriminate|].
        eexists. split; [reflexivity|]. cbn. auto.
  - cbn. rewrite lookup_insert_eq. split; [lia|]. split; [discriminate|].
    eexists. split; [reflexivity|]. cbn. auto.
Qed.

Lemma check_refused now key l :
  allowed (fst (check now key l)) = false →
  ∃ e, requests l !! key = Some e ∧ now ≤ resetTime e ∧
       maxRequests l ≤ count e ∧
       check now key l = (mkResult false 0 (resetTime e), l).
Proof.
  unfold check, openWindow.
  destruct (requests l !! key) as [e|] eqn:He; [|discriminate].
  destruct (Z.gtb_spec now (resetTime e)); [discriminate|].
  destruct (Z.geb_spec (count e) (maxRequests l)); [|discriminate].
  intros _. exists e. repeat split; [lia | lia].
Qed.

(** X6.  A refused check changes nothing, and the refusal stands until the
    reset time has passed: every check on the key at a time not after the
    reported reset time is refused with the same result. *)
Theorem rate_limit_refusal_stable now key l :
  allowed (fst (check now key l)) = false →
  snd (check now key l) = l ∧
  ∀ now', now' ≤ reset (fst (check now key l)) →
    check now' key l = check now key l.
Proof.
  intros Href. destruct (check_refused now key l Href) as (e & He & Hnow & Hfull & Hck).
  rewrite Hck. cbn [fst snd reset]. split; [reflexivity|].
  intros now' Hnow'. unfold check. rewrite He.
  destruct (Z.gtb_spec now' (resetTime e)); [lia|].
  destruct (Z.geb_spec (count e) (maxRequests l)); [reflexivity | lia].
Qed.

End RateLimitFurther.

Section RateLimitHookProperties.
Import RateLimit RateLimitHook.
Variable toISOString : Z → string.

Lemma ceilSeconds_spec a :
  1000 * (ceilSeconds a - 1) < a ≤ 1000 * ceilSeconds a.
Proof.
  unfold ceilSeconds.
  pose proof (Z.div_mod (- a) 1000 ltac:(lia)) as Hdm.
  pose proof (Z.mod_pos_bound (- a) 1000 ltac:(lia)) as Hb.
  lia.
Qed.

(** X7.  The hook sends 429 exactly when [check] refuses, and sends nothing
    otherwise; the limiter ends as [check] leaves it.  The three rate-limit
    headers are set in both cases.  When it sends 429, [retryAfter] is the
    number of whole seconds from [now2] that covers the reset time, and a
    request made later than [now2 + 1000 * retryAfter] is allowed. *)
Theorem rate_limit_hook_reply ip now now2 l :
  let '(reply, l') := rateLimitMiddleware toISOString ip now now2 l in
  let r := fst (check now ip l) in
  l' = snd (check now ip l) ∧
  headers reply = [("X-RateLimit-Limit", HNum (maxRequests l));
                   ("X-RateLimit-Remaining", HNum (remaining r));
                   ("X-RateLimit-Reset", HStr (toISOString (reset r)))] ∧
  (allowed r = true → sent reply = None) ∧
  (allowed r = false →
     ∃ after, sent reply = Some (429, mkTooMany "Too many requests" after) ∧
       1000 * (after - 1) < reset r - now2 ≤ 1000 * after ∧
       ∀ t, now2 + 1000 * after < t → allowed (fst (check t ip l')) = true).
Proof.
  unfold rateLimitMiddleware.
  destruct (check now ip l) as [r l'] eqn:Hck. cbn [fst snd].
  assert (Hmax : maxRequests l' = maxRequests l).
  { replace l' with (snd (check now ip l)) by (rewrite Hck; reflexivity).
    unfold check, openWindow. destruct (requests l !! ip) as [e|]; [|reflexivity].
    destruct (now >? resetTime e); [reflexivity|].
    destruct (count e >=? maxRequests l); reflexivity. }
  destruct (allowed r) eqn:Hal; cbn [headers sent]; unfold getMaxRequests; rewrite Hmax.
  - repeat split. discriminate.
  - repeat split; [discriminate|]. intros _.
    exists (ceilSeconds (reset r - now2)). split; [reflexivity|].
    pose proof (ceilSeconds_spec (reset r - now2)) as Hceil. split; [exact Hceil|].
    intros t Ht.
    assert (Href : allowed (fst (check now ip l)) = false) by (rewrite Hck; exact Hal).
    destruct (check_refused now ip l Href) as (e & He & _ & _ & Hck').
    rewrite Hck' in Hck. injection Hck as <- <-. cbn [reset] in *.
    unfold check. rewrite He.
    destruct (Z.gtb_spec t (resetTime e)); [reflexivity | lia].
Qed.

End RateLimitHookProperties.

(** Waiting exactly [retryAfter] seconds can still be refused: the window
    ends only when the clock is past the reset time. *)
Example rate_limit_hook_retry_boundary :
  let l := snd (RateLimit.checks [(0, "ip")] (RateLimit.new 1 1000)) in
  let '(reply, l') := RateLimitHook.rateLimitMiddleware (λ _, "") "ip" 0 0 l in
  RateLimitHook.sent reply
    = Some (429, RateLimitHook.mkTooMany "Too many requests" 1) ∧
  RateLimit.allowed (fst (RateLimit.check (0 + 1000 * 1) "ip" l')) = false ∧
  RateLimit.allowed (fst (RateLimit.check (0 + 1000 * 1 + 1) "ip" l')) = true.
Proof. vm_compute. repeat split; reflexivity. Qed.

(** ** Idempotency cache *)

Section IdempotencyFurther.
Import Idempotency.
Context {Response : Type}.
Implicit Types (c : IdempotencyCache Response) (v : Response).

(** X8.  [has] and [get] agree: [has] answers [true] exactly when [get]
    returns a response, and both leave the same cache behind (both delete
    an expired entry). *)
Theorem idempotency_has_agrees_get c now key :
  (fst (has now key c) = true ↔ is_Some (fst (get now key c))) ∧
  snd (has now key c) = snd (get now key c).
Proof.
  unfold has, get. destruct (cache c !! key) as [e|].
  - destruct (now - timestamp e >? ttl c); cbn; split; try reflexivity.
    + split; [discriminate | intros [x Hx]; discriminate].
    + split; [eauto | reflexivity].
  - cbn. split; [|reflexivity]. split; [discriminate | intros [x Hx]; discriminate].
Qed.

(** X9.  [set] overwrites: after two writes to one key the cache is as if
    only the second had happened, and the entry's age counts from the
    second write, so a read returns the second response as long as the time
    since the second write is within the TTL. *)
Theorem idempotency_overwrite c key v1 v2 t1 t2 now :
  set t2 key v2 (set t1 key v1 c) = set t2 key v2 c ∧
  (now - t2 ≤ ttl c →
   fst (get now key (set t2 key v2 (set t1 key v1 c))) = Some v2).
Proof.
  split.
  - unfold set. cbn [cache ttl]. rewrite insert_insert_eq. reflexivity.
  - intros Hage. unfold get, set. cbn [cache ttl]. rewrite lookup_insert_eq.
    cbn [timestamp response].
    destruct (Z.gtb_spec (now - t2) (ttl c)); [lia | reflexivity].
Qed.

(** X10.  With a clock that does not go back, a read never changes what a
    later read returns, on the same key or on another: a read of a live
    entry changes nothing (it does not extend the entry's life), and a read
    that deletes an expired entry deletes one that the later read would
    find expired too. *)
Theorem idempotency_reads_transparent c key key' now1 now2 :
  now1 ≤ now2 →
  fst (get now2 key (snd (get now1 key' c))) = fst (get now2 key c).
Proof.
  intros Hclock. unfold get at 2.
  destruct (cache c !! key') as [e'|] eqn:He'; [|reflexivity].
  destruct (Z.gtb_spec (now1 - timestamp e') (ttl c)) as [Hexp|]; [|reflexivity].
  cbn [snd]. unfold get. cbn [cache ttl].
  destruct (decide (key' = key)) as [->|Hne].
  - rewrite lookup_delete_eq, He'.
    destruct (Z.gtb_spec (now2 - timestamp e') (ttl c)); [reflexivity | lia].
  - rewrite lookup_delete_ne by assumption.
    destruct (cache c !! key) as [e|]; [|reflexivity].
    destruct (now2 - timestamp e >? ttl c); reflexivity.
Qed.

(** X11.  Keys do not interfere: a write to one key does not change what a
    read of another key returns. *)
Theorem idempotency_keys_independent c key key' v t now :
  key ≠ key' →
  fst (get now key (set t key' v c)) = fst (get now key c).
Proof.
  intros Hne. unfold get, set. cbn [cache ttl].
  rewrite lookup_insert_ne by congruence.
  destruct (cache c !! key) as [e|]; [|reflexivity].
  destruct (now - timestamp e >? ttl c); reflexivity.
Qed.

End IdempotencyFurther.

(** ** Request coalescer *)

Section CoalescingFurther.
Import Js Coalescing CoalescingRuns.
Context {TKey TResult : Type}.
Variable stringify : TKey → string.

Abbreviation CState := (RequestCoalescer * Promises TResult)%type.
Abbreviation exec := (Coalescing.execute (TResult := TResult) stringify).
Abbreviation runs := (Coalescing.run (TResult := TResult) stringify).

Lemma startRequest_inFlight keyStr now (st : CState) :
  entriesInFlight st → entriesInFlight (snd (startRequest keyStr now st)).
Proof.
  intros [He Hc]. destruct st as [c h]. unfold entriesInFlight, startRequest.
  cbn in *. split.
  - intros k e Hk. destruct (decide (keyStr = k)) as [->|Hne].
    + rewrite lookup_insert_eq in Hk. injection Hk as <-. cbn.
      apply lookup_insert_eq.
    + rewrite lookup_insert_ne in Hk by assumption.
      pose proof (He _ _ Hk) as Hin. pose proof (Hc _ _ Hin).
      rewrite lookup_insert_ne by lia. exact Hin.
  - intros p k Hp. destruct (decide (made h = p)) as [<-|Hne]; [lia|].
    rewrite lookup_insert_ne in Hp by assumption. pose proof (Hc _ _ Hp). lia.
Qed.

Lemma execute_inFlight key now (st : CState) :
  entriesInFlight st → entriesInFlight (snd (exec key now st)).
Proof.
  intros Hinv. unfold Coalescing.execute.
  destruct (pending (fst st) !! Coalescing.serializeKey stringify key) as [ex|];
    [destruct (now - timestamp ex <? windowMs (fst st))|];
    try (apply startRequest_inFlight; assumption).
  exact Hinv.
Qed.

Lemma settle_inFlight p r (st : CState) :
  entriesInFlight st → entriesInFlight (settle p r st).
Proof.
  intros [He Hc]. destruct st as [c h]. unfold entriesInFlight, settle. cbn in *.
  destruct (cleanup h !! p) as [kp|] eqn:Hp; cbn; [|auto]. split.
  - intros k e Hk. destruct (decide (kp = k)) as [->|Hne].
    + rewrite lookup_delete_eq in Hk. discriminate.
    + rewrite lookup_delete_ne in Hk by assumption.
      pose proof (He _ _ Hk) as Hin.
      rewrite lookup_delete_ne; [exact Hin|]. intros Heq. rewrite Heq in Hp. congruence.
  - intros q k Hq. destruct (decide (p = q)) as [<-|Hne].
    + rewrite lookup_delete_eq in Hq. discriminate.
    + rewrite lookup_delete_ne in Hq by assumption. eauto.
Qed.

Lemma run_inFlight steps : ∀ (st : CState),
  entriesInFlight st → entriesInFlight (snd (runs steps st)).
Proof.
  induction steps as [|[key now|p r] steps IH]; intros st Hinv; [exact Hinv| |].
  - cbn [Coalescing.run]. pose proof (execute_inFlight key now st Hinv) as H1.
    destruct (exec key now st) as [e st1]. cbn [snd] in H1.
    specialize (IH st1 H1). destruct (runs steps st1) as [es st2]. exact IH.
  - cbn [Coalescing.run]. apply IH, settle_inFlight, Hinv.
Qed.

(** X12.  In every state a new coalescer reaches: each stored entry holds a
    promise that is still in flight and was started for the entry's own
    key; two keys never share a promise; and once no call is in flight, no
    entry is left ([pendingCount] is 0). *)
Theorem coalescer_entries_in_flight (w : Z) steps :
  let st := snd (runs steps (new w, noPromises)) in
  (∀ k e, pending (fst st) !! k = Some e →
          cleanup (snd st) !! promise e = Some k) ∧
  (∀ k1 k2 e1 e2,
     pending (fst st) !! k1 = Some e1 → pending (fst st) !! k2 = Some e2 →
     promise e1 = promise e2 → k1 = k2) ∧
  (cleanup (snd st) = ∅ → pendingCount (fst st) = 0%nat).
Proof.
  cbn zeta.
  assert (Hinv : entriesInFlight (snd (runs steps (new w, noPromises)))).
  { apply run_inFlight. split; cbn; intros ? ? H; rewrite lookup_empty in H;
      discriminate. }
  destruct Hinv as [He _].
  set (st := snd (runs steps (new w, noPromises))) in *. clearbody st.
  split; [exact He|]. split.
  - intros k1 k2 e1 e2 H1 H2 Heq.
    pose proof (He _ _ H1) as Hc1. pose proof (He _ _ H2) as Hc2.
    rewrite Heq in Hc1. congruence.
  - intros Hnone. unfold pendingCount.
    assert (Hp : pending (fst st) = ∅).
    { apply map_empty. intros k. destruct (pending (fst st) !! k) as [e|] eqn:Hk;
        [|reflexivity].
      pose proof (He _ _ Hk) as Hc. rewrite Hnone, lookup_empty in Hc. discriminate. }
    rewrite Hp. apply map_size_empty.
Qed.

(** X13.  [clear] forgets the entries, not the calls: afterwards
    [pendingCount] is 0 and the next caller of any key invokes its [fn],
    also when a call for that key is in flight and inside the window; the
    promises in flight are untouched. *)
Theorem coalescer_clear_restarts (c : RequestCoalescer) (h : Promises TResult) key now :
  pendingCount (clear c) = 0%nat ∧
  windowMs (clear c) = windowMs c ∧
  exec key now (clear c, h)
  = startRequest (Coalescing.serializeKey stringify key) now (clear c, h) ∧
  called (fst (exec key now (clear c, h))) = true ∧
  awaited (fst (exec key now (clear c, h))) = made h.
Proof.
  unfold pendingCount, clear, Coalescing.execute. cbn [pending windowMs fst].
  rewrite lookup_empty. split; [apply map_size_empty|]. repeat split.
Qed.

(** X14.  With a positive window, two callers that arrive at the same time
    with keys of the same serialized form share one call: the second
    invokes nothing and awaits the promise the first awaits.  This holds for
    two objects with the same JSON text, and for a string key and an object
    whose JSON text is that string. *)
Theorem coalescer_equal_serialization key1 key2 now (st : CState) :
  0 < windowMs (fst st) →
  Coalescing.serializeKey stringify key1 = Coalescing.serializeKey stringify key2 →
  let '(e1, st1) := exec key1 now st in
  exec key2 now st1
  = (mkExecuted (Coalescing.serializeKey stringify key2) (awaited e1) false, st1).
Proof.
  intros Hw Hser. unfold Coalescing.execute at 1.
  destruct (pending (fst st) !! Coalescing.serializeKey stringify key1) as [ex|] eqn:Hex.
  - destruct (Z.ltb_spec (now - timestamp ex) (windowMs (fst st))) as [Hin|Hout].
    + unfold Coalescing.execute. rewrite <- Hser, Hex.
      destruct (Z.ltb_spec (now - timestamp ex) (windowMs (fst st))); [|lia].
      reflexivity.
    + destruct st as [c h]. unfold startRequest, Coalescing.execute.
      cbn [fst snd pending windowMs awaited] in *. rewrite <- Hser, lookup_insert_eq.
      cbn [timestamp promise].
      destruct (Z.ltb_spec (now - now) (windowMs c)); [reflexivity | lia].
  - destruct st as [c h]. unfold startRequest, Coalescing.execute.
    cbn [fst snd pending windowMs awaited] in *. rewrite <- Hser, lookup_insert_eq.
    cbn [timestamp promise].
    destruct (Z.ltb_spec (now - now) (windowMs c)); [reflexivity | lia].
Qed.

Lemma run_zero_window steps : ∀ t (st : CState),
  windowMs (fst st) ≤ 0 →
  (∀ k e, pending (fst st) !! k = Some e → timestamp e ≤ t) →
  clockFrom t steps →
  Forall (λ e, called e = true) (fst (runs steps st)).
Proof.
  induction steps as [|[key now|p r] steps IH]; intros t st Hw Hts Hclock.
  - constructor.
  - destruct Hclock as [Ht Hclock]. cbn [Coalescing.run].
    assert (Hex : exec key now st
                  = startRequest (Coalescing.serializeKey stringify key) now st).
    { unfold Coalescing.execute. cbv zeta.
      destruct (pending (fst st) !! Coalescing.serializeKey stringify key)
        as [ex|] eqn:Hk; [|reflexivity].
      pose proof (Hts _ _ Hk).
      destruct (Z.ltb_spec (now - timestamp ex) (windowMs (fst st))); [lia|reflexivity]. }
    rewrite Hex. destruct st as [c h]. cbn [startRequest].
    match goal with |- context [runs steps ?s] => specialize (IH now s) end.
    cbn [fst snd pending windowMs] in *.
    destruct (runs steps _) as [es st2]. cbn [fst].
    constructor; [reflexivity|]. apply IH; [assumption| |assumption].
    intros k e Hk. destruct (decide (Coalescing.serializeKey stringify key = k)) as [<-|Hne].
    + rewrite lookup_insert_eq in Hk. injection Hk as <-. cbn. lia.
    + rewrite lookup_insert_ne in Hk by assumption. pose proof (Hts _ _ Hk). lia.
  - cbn [Coalescing.run]. cbn in Hclock. apply (IH t); [| |assumption].
    + destruct st as [c h]. unfold settle. cbn in *.
      destruct (cleanup h !! p); assumption.
    + destruct st as [c h]. unfold settle. cbn in *.
      destruct (cleanup h !! p) as [kp|]; [|assumption]. cbn.
      intros k e Hk. destruct (decide (kp = k)) as [->|Hne].
      * rewrite lookup_delete_eq in Hk. discriminate.
      * rewrite lookup_delete_ne in Hk by assumption. eauto.
Qed.

(** X15.  A window of zero (or less) switches coalescing off: when the
    callers' clock never goes back, every call of [execute] on a new
    coalescer invokes its [fn], however many calls are in flight. *)
Theorem coalescer_zero_window (w t : Z) steps :
  w ≤ 0 →
  clockFrom t steps →
  Forall (λ e, called e = true) (fst (runs steps (new w, noPromises))).
Proof.
  intros Hw Hclock. apply (run_zero_window steps t); [exact Hw| |exact Hclock].
  cbn. intros k e Hk. rewrite lookup_empty in Hk. discriminate.
Qed.

End CoalescingFurther.

(** ** Anthropic adapter *)

Section AnthropicFurther.
Import Js Base Anthropic.

Lemma filter_non_system_sublist ms :
  sublist (List.filter (λ m, negb (isSystem m)) ms) ms.
Proof.
  induction ms as [|m ms IH]; [constructor|]. cbn.
  destruct (isSystem m); cbn; [apply sublist_cons | apply sublist_skip]; exact IH.
Qed.

(** X16.  The list forwarded to the vendor never contains a system message;
    it is a subsequence of the request's messages that keeps every
    non-system message; when every message of the request is a system
    message, the forwarded list is empty. *)
Theorem anthropic_forwarded_non_system (request : ChatRequest) :
  let p := createParams request in
  Forall (λ m, role m ≠ system) (p_messages p) ∧
  sublist (p_messages p) (messages request) ∧
  (∀ m, In m (messages request) → role m ≠ system → In m (p_messages p)) ∧
  (Forall (λ m, role m = system) (messages request) → p_messages p = []).
Proof.
  cbn zeta. unfold createParams. cbn [p_messages].
  split; [|split; [|split]].
  - apply Forall_forall. intros m Hm. apply list_elem_of_In in Hm.
    apply List.filter_In in Hm as [_ Hm]. unfold isSystem in Hm.
    apply negb_true_iff, bool_decide_eq_false in Hm. exact Hm.
  - apply filter_non_system_sublist.
  - intros m Hin Hrole. apply List.filter_In. split; [exact Hin|].
    unfold isSystem. apply negb_true_iff, bool_decide_eq_false. exact Hrole.
  - intros Hall. induction Hall as [|m ms Hm _ IH]; [reflexivity|].
    cbn. unfold isSystem at 1. rewrite bool_decide_eq_true_2 by assumption.
    exact IH.
Qed.

Lemma isRetryable_false err :
  isRetryable err = false ↔
  ∃ status e, err = APIError (Some status) e ∧
              status ≠ 0 ∧ status < 500 ∧ status ≠ 429.
Proof.
  split.
  - destruct err as [[status|] e|e]; cbn; try discriminate.
    destruct (Z.eqb_spec status 0); [discriminate|].
    destruct (Z.geb_spec status 500); [discriminate|].
    destruct (Z.eqb_spec status 429); [discriminate|].
    intros _. exists status, e. auto.
  - intros (status & e & -> & H0 & H500 & H429). cbn.
    destruct (Z.eqb_spec status 0); [contradiction|].
    destruct (Z.geb_spec status 500); [lia|].
    destruct (Z.eqb_spec status 429); [contradiction | reflexivity].
Qed.

(** X17.  [chat] turns every outcome of the vendor call into a result: a
    response into a success, a thrown value into a failure that carries the
    thrown error.  The failure is marked non-retryable exactly when the
    thrown value is an API error with a status that is not 0, is below 500
    and is not 429; API errors without a status, with status 0, 429 or
    500 and above, and all other thrown values are retryable. *)
Theorem anthropic_chat_classification {World : Type}
    (create : MessageCreateParams → World → (ApiResponse + Thrown) * World)
    (request : ChatRequest) (w : World) :
  match create (createParams request) w with
  | (inl response, w') =>
    chat create request w = (Success (toChatResponse response), w')
  | (inr err, w') =>
    ∃ b, chat create request w = (Failure (errorOf err) b, w') ∧
         (b = false ↔
          ∃ status e, err = APIError (Some status) e ∧
                      status ≠ 0 ∧ status < 500 ∧ status ≠ 429)
  end.
Proof.
  unfold chat. destruct (create (createParams request) w) as [[response|err] w'].
  - reflexivity.
  - exists (isRetryable err). split; [reflexivity | apply isRetryable_false].
Qed.

(** X18.  The response handed back never has the finish reason
    [content_filter]: it is [length] exactly when the vendor's stop reason
    is "max_tokens", and [stop] otherwise.  The total token count is the sum
    of the two counts.  The content is the text of the first block when
    that block is a text block, and empty otherwise, whatever the later
    blocks hold. *)
Theorem anthropic_response_mapping (response : ApiResponse) :
  let r := toChatResponse response in
  finishReason r ≠ content_filter ∧
  (finishReason r = length ↔ stop_reason response = "max_tokens") ∧
  (finishReason r = stop ↔ stop_reason response ≠ "max_tokens") ∧
  totalTokens (usage r) = promptTokens (usage r) + completionTokens (usage r) ∧
  (∀ text rest, r_content response = TextBlock text :: rest →
     responseContent r = text) ∧
  (∀ rest, r_content response = OtherBlock :: rest → responseContent r = "") ∧
  (r_content response = [] → responseContent r = "").
Proof.
  cbn zeta. unfold toChatResponse.
  cbn [finishReason usage totalTokens promptTokens completionTokens responseContent].
  destruct (String.eqb_spec (stop_reason response) "max_tokens") as [Heq|Hne].
  - repeat split; try discriminate; try (intros; congruence).
    all: intros; match goal with H : r_content _ = _ |- _ => rewrite H end; reflexivity.
  - repeat split; try discriminate; try (intros; congruence).
    all: intros; match goal with H : r_content _ = _ |- _ => rewrite H end; reflexivity.
Qed.

End AnthropicFurther.

(** ** Orchestrator *)

Section ServiceFurther.
Import Js Base Retry Service.
Context {World : Type}.
Variable createCircuitBreaker :
  string → (ChatRequest → World → ProviderResult * World) →
  Breaker.CircuitBreakerOptions → CircuitBreaker World.

Lemma foldl_registry (opts : Breaker.CircuitBreakerOptions) :
  ∀ (ps : list (LLMProvider World)) (m : gmap string (LLMProvider World))
    (mb : gmap string (CircuitBreaker World)),
  (∀ k p, m !! k = Some p → name p = k ∧ is_Some (mb !! k)) →
  let m' := foldl (λ m p, <[name p := p]> m) m ps in
  let mb' := foldl (λ m p, <[name p := createCircuitBreaker (name p)
                                          (λ req, Base.chat p req) opts]> m) mb ps in
  (∀ k p, m' !! k = Some p →
     name p = k ∧ is_Some (mb' !! k) ∧ (m !! k = Some p ∨ In p ps)) ∧
  (∀ k, is_Some (m !! k) → is_Some (m' !! k)) ∧
  (∀ p, In p ps → is_Some (m' !! name p)) ∧
  (∀ k, m !! k = None → (∀ p, In p ps → name p ≠ k) → m' !! k = None).
Proof.
  induction ps as [|a ps IH]; intros m mb Hinv; cbn zeta.
  - cbn. repeat split; try (intros; eauto; fail).
    + apply (Hinv _ _ H).
    + apply (Hinv _ _ H).
    + intros p [].
  - cbn [foldl].
    specialize (IH (<[name a := a]> m)
                   (<[name a := createCircuitBreaker (name a)
                                  (λ req, Base.chat a req) opts]> mb)).
    destruct IH as (H1 & H2 & H3 & H4).
    { intros k p Hk. destruct (decide (name a = k)) as [<-|Hne].
      - rewrite lookup_insert_eq in Hk. injection Hk as <-.
        rewrite lookup_insert_eq. eauto.
      - rewrite lookup_insert_ne in Hk by assumption.
        rewrite lookup_insert_ne by assumption. apply (Hinv _ _ Hk). }
    split; [|split; [|split]].
    + intros k p Hk. destruct (H1 _ _ Hk) as (Hn & Hb & Hor).
      split; [exact Hn|]. split; [exact Hb|].
      destruct Hor as [Hm|Hin]; [|right; right; exact Hin].
      destruct (decide (name a = k)) as [<-|Hne].
      * rewrite lookup_insert_eq in Hm. injection Hm as <-. right. left. reflexivity.
      * rewrite lookup_insert_ne in Hm by assumption. left. exact Hm.
    + intros k Hk. apply H2. destruct (decide (name a = k)) as [<-|Hne].
      * rewrite lookup_insert_eq. eauto.
      * rewrite lookup_insert_ne by assumption. exact Hk.
    + intros p [<-|Hin]; [|apply H3, Hin].
      apply H2. rewrite lookup_insert_eq. eauto.
    + intros k Hk Hnames. apply H4.
      * rewrite lookup_insert_ne; [exact Hk|]. apply Hnames. left. reflexivity.
      * intros p Hin. apply Hnames. right. exact Hin.
Qed.

(** X19.  In a service built by the constructor, a provider is stored under
    its own name, every provider of the list can be looked up by its name,
    and every stored provider has a breaker under its name: the lookup
    [this.circuitBreakers.get(provider.name)!] in [chat] never yields
    [undefined]. *)
Theorem service_new_registry ps dflt options :
  let svc := new createCircuitBreaker ps dflt options in
  (∀ k p, providers svc !! k = Some p →
     name p = k ∧ In p ps ∧ is_Some (circuitBreakers svc !! name p)) ∧
  (∀ p, In p ps → is_Some (providers svc !! name p)).
Proof.
  cbn zeta. unfold new. cbn [providers circuitBreakers].
  destruct (foldl_registry (default defaultBreakerOptions options) ps ∅ ∅)
    as (H1 & _ & H3 & _).
  { intros k p Hk. rewrite lookup_empty in Hk. discriminate. }
  split; [|exact H3].
  intros k p Hk. destruct (H1 _ _ Hk) as (Hn & Hb & Hor).
  split; [exact Hn|]. split.
  - destruct Hor as [Hm|Hin]; [rewrite lookup_empty in Hm; discriminate | exact Hin].
  - rewrite Hn. exact Hb.
Qed.

(** X20.  When the wanted name (the given provider name, or the default
    when none is given) is the name of no provider of the list, [chat]
    throws [Provider not found: <name>]; no breaker is fired and nothing
    changes. *)
Theorem service_unknown_provider ps dflt options request providerName w :
  (∀ p, In p ps → name p ≠ default dflt providerName) →
  chat (new createCircuitBreaker ps dflt options) request providerName w
  = Some (Throw (Some (mkError ("Provider not found: " +:+
                                default dflt providerName))), w, []).
Proof.
  intros Hnames. unfold chat.
  destruct (foldl_registry (default defaultBreakerOptions options) ps ∅ ∅)
    as (_ & _ & _ & H4).
  { intros k p Hk. rewrite lookup_empty in Hk. discriminate. }
  unfold new. cbn [providers defaultProvider].
  rewrite (H4 (default dflt providerName)); [reflexivity | | exact Hnames].
  apply lookup_empty.
Qed.

(** X21.  For a registered provider, [chat] fires the breaker at least once
    and at most three times, and the pauses between the fires are exactly
    100 ms and then 200 ms. *)
Theorem service_chat_attempts (svc : LLMService World) request providerName provider w :
  providers svc !! default (defaultProvider svc) providerName = Some provider →
  ∃ c tr,
    chat svc request providerName w
    = Some (c,
            stateAfter (protectedCall (circuitBreakers svc !! name provider) request)
              w (invocations tr),
            tr) ∧
    (tr = [Invoke] ∨ tr = [Invoke; Sleep 100; Invoke] ∨
     tr = [Invoke; Sleep 100; Invoke; Sleep 200; Invoke]).
Proof.
  intros Hp. unfold chat. rewrite Hp. unfold retryWithBackoff.
  destruct (loop_run (protectedCall (circuitBreakers svc !! name provider) request)
              chatRetryOptions
              (S (Z.to_nat (maxAttempts chatRetryOptions))) 1
              (initialDelay chatRetryOptions) None w)
    as (j & c & Hrun & Hle & _ & _); [cbn; lia | cbn; lia |].
  change (Z.of_nat 1) with 1 in Hrun. rewrite Hrun.
  cbn [maxAttempts chatRetryOptions] in Hle.
  assert (Hj : j = 0%nat ∨ j = 1%nat ∨ j = 2%nat) by lia.
  assert (Hinv : invocations (Retry.runEvents chatRetryOptions
                                (initialDelay chatRetryOptions) j) = S j)
    by apply invocations_runEvents.
  assert (Hshape :
    ∃ c', match c with
          | Throw e => Some (Throw e, stateAfter
                        (protectedCall (circuitBreakers svc !! name provider) request)
                        w (S j),
                        Retry.runEvents chatRetryOptions (initialDelay chatRetryOptions) j)
          | Return (Failure error _) =>
            Some (Throw (Some error), stateAfter
                    (protectedCall (circuitBreakers svc !! name provider) request)
                    w (S j),
                  Retry.runEvents chatRetryOptions (initialDelay chatRetryOptions) j)
          | Return (Success data) =>
            Some (Return data, stateAfter
                    (protectedCall (circuitBreakers svc !! name provider) request)
                    w (S j),
                  Retry.runEvents chatRetryOptions (initialDelay chatRetryOptions) j)
          end
          = Some (c', stateAfter
                    (protectedCall (circuitBreakers svc !! name provider) request)
                    w (S j),
                  Retry.runEvents chatRetryOptions (initialDelay chatRetryOptions) j)).
  { destruct c as [[data|error r]|e]; eauto. }
  destruct Hshape as [c' Hc'].
  exists c', (Retry.runEvents chatRetryOptions (initialDelay chatRetryOptions) j).
  rewrite Hinv. split.
  - destruct c as [[data|error r]|e]; exact Hc'.
  - destruct Hj as [->|[->| ->]]; [left | right; left | right; right]; reflexivity.
Qed.

(** X22.  When the breaker's [fire] rejects three times in a row, [chat]
    makes the three attempts with pauses of 100 ms and 200 ms and throws
    ["Max retry attempts (3) reached. Last error: "] followed by the
    message of the third rejection. *)
Theorem service_chat_rejected_thrice (svc : LLMService World) request providerName
    provider breaker w e1 w1 e2 w2 e3 w3 :
  providers svc !! default (defaultProvider svc) providerName = Some provider →
  circuitBreakers svc !! name provider = Some breaker →
  fire breaker request w = (Rejected e1, w1) →
  fire breaker request w1 = (Rejected e2, w2) →
  fire breaker request w2 = (Rejected e3, w3) →
  chat svc request providerName w
  = Some (Throw (Some (mkError ("Max retry attempts (3) reached. Last error: " +:+
                                message e3))),
          w3, [Invoke; Sleep 100; Invoke; Sleep 200; Invoke]).
Proof.
  intros Hp Hb E1 E2 E3. unfold chat. rewrite Hp, Hb.
  unfold retryWithBackoff, chatRetryOptions.
  change (Z.to_nat _) with 3%nat.
  cbn. rewrite E1. cbn. rewrite E2. cbn. rewrite E3. reflexivity.
Qed.

(** X23.  A rejected [fire] is retried: when the first fire rejects and the
    second resolves with a successful result, [chat] returns its data
    after one pause of 100 ms; the first error is dropped. *)
Theorem service_chat_recovers (svc : LLMService World) request providerName
    provider breaker w e1 w1 data w2 :
  providers svc !! default (defaultProvider svc) providerName = Some provider →
  circuitBreakers svc !! name provider = Some breaker →
  fire breaker request w = (Rejected e1, w1) →
  fire breaker request w1 = (Fulfilled (Success data), w2) →
  chat svc request providerName w
  = Some (Return data, w2, [Invoke; Sleep 100; Invoke]).
Proof.
  intros Hp Hb E1 E2. unfold chat. rewrite Hp, Hb.
  unfold retryWithBackoff, chatRetryOptions.
  change (Z.to_nat _) with 3%nat.
  cbn. rewrite E1. cbn. rewrite E2. reflexivity.
Qed.

End ServiceFurther.

(** ** Chat route *)

Section RouteProperties.
Import Js Base Retry Route.
Context {World Raw Issues : Type}.
Variable parseRequest : Raw → Issues + ParsedBody.
Variable parseResponse : ChatResponse → Issues + ChatResponse.

Abbreviation handle := (handler parseRequest parseResponse).

Lemma lookupCached_hit key now (c : Idempotency.IdempotencyCache ChatResponse) v :
  key ≠ "" →
  fst (Idempotency.get now key c) = Some v →
  lookupCached (Some key) now c = (Some v, c).
Proof.
  intros Hkey Hget. unfold lookupCached, usableKey.
  destruct key as [|a key]; [contradiction|].
  unfold Idempotency.get in *.
  destruct (Idempotency.cache c !! String a key) as [e|]; [|discriminate].
  destruct (now - Idempotency.timestamp e >? Idempotency.ttl c); [discriminate|].
  cbn in Hget. injection Hget as <-. reflexivity.
Qed.

Lemma handler_completed_cache (svc : Service.LLMService World)
    idempotencyKey raw now now2 c w v c' w' :
  handler parseRequest parseResponse svc idempotencyKey raw now now2 c w
  = Some (Replied (Completed v), c', w') →
  c' = storeResponse idempotencyKey now2 v (snd (lookupCached idempotencyKey now c)).
Proof.
  unfold handler.
  destruct (lookupCached idempotencyKey now c) as [[v0|] c1]; cbn [snd]; [discriminate|].
  destruct (parseRequest raw) as [issues|body]; [discriminate|].
  destruct (Service.chat svc (toChatRequest body) (b_provider body) w)
    as [[[[response|e] w1] tr]|]; [| discriminate | discriminate].
  destruct (parseResponse response) as [issues|validated]; [discriminate|].
  intros H. injection H as <- <- _. reflexivity.
Qed.

Lemma handler_no_key (svc : Service.LLMService World) raw now now2 c w :
  match handler parseRequest parseResponse svc None raw now now2 c w with
  | Some (_, c', _) => c' = c
  | None => True
  end.
Proof.
  unfold handler. cbn [lookupCached usableKey storeResponse].
  destruct (parseRequest raw) as [issues|body]; [reflexivity|].
  destruct (Service.chat svc (toChatRequest body) (b_provider body) w)
    as [[[[response|e] w1] tr]|]; [| reflexivity | exact I].
  destruct (parseResponse response) as [issues|validated]; reflexivity.
Qed.

(** X24.  A hit in the idempotency cache answers the request at once: the
    cached response is sent with status 200 whatever the body is (it is not
    even validated), the service is not called, and neither the cache nor
    the world changes. *)
Theorem route_cache_hit (svc : Service.LLMService World) key raw now now2 c w v :
  key ≠ "" →
  fst (Idempotency.get now key c) = Some v →
  handle svc (Some key) raw now now2 c w = Some (Replied (Cached v), c, w).
Proof.
  intros Hkey Hget. unfold handler.
  rewrite (lookupCached_hit key now c v Hkey Hget). reflexivity.
Qed.

(** X25.  Only a validated successful response is stored.  Whatever else
    happens (validation error of the body, an error thrown by the service,
    a response that fails validation), the cache is left as the lookup left
    it; a response is stored under the key at the time of the store, and
    without a usable key nothing is stored. *)
Theorem route_stores_only_success (svc : Service.LLMService World)
    idempotencyKey raw now now2 c w :
  match handle svc idempotencyKey raw now now2 c w with
  | Some (Replied (Completed v), c', _) =>
    c' = storeResponse idempotencyKey now2 v (snd (lookupCached idempotencyKey now c))
  | Some (_, c', _) => c' = snd (lookupCached idempotencyKey now c)
  | None => True
  end.
Proof.
  unfold handler.
  destruct (lookupCached idempotencyKey now c) as [[v|] c1]; cbn [snd]; [reflexivity|].
  destruct (parseRequest raw) as [issues|body]; [reflexivity|].
  destruct (Service.chat svc (toChatRequest body) (b_provider body) w)
    as [[[[response|e] w'] tr]|]; [| reflexivity | exact I].
  destruct (parseResponse response) as [issues|validated]; reflexivity.
Qed.

(** The handler is its two parts around the call of the service. *)
Lemma handler_arrive_resume (svc : Service.LLMService World)
    idempotencyKey raw now now2 c w :
  handle svc idempotencyKey raw now now2 c w
  = match RouteRuns.arrive parseRequest idempotencyKey raw now c with
    | (inl sent, c1) => Some (Replied sent, c1, w)
    | (inr body, c1) =>
      match Service.chat svc (toChatRequest body) (b_provider body) w with
      | None => None
      | Some (answer, w', _) =>
        let '(o, c2) := RouteRuns.resume parseResponse idempotencyKey answer now2 c1 in
        Some (o, c2, w')
      end
    end.
Proof.
  unfold handler, RouteRuns.arrive, RouteRuns.resume.
  destruct (lookupCached idempotencyKey now c) as [[v|] c1]; [reflexivity|].
  destruct (parseRequest raw) as [issues|body]; [reflexivity|].
  destruct (Service.chat svc (toChatRequest body) (b_provider body) w)
    as [[[[response|e] w'] tr]|]; [| reflexivity | reflexivity].
  destruct (parseResponse response) as [issues|validated]; reflexivity.
Qed.

Lemma usableKey_some idempotencyKey k :
  usableKey idempotencyKey = Some k → idempotencyKey = Some k ∧ k ≠ "".
Proof.
  destruct idempotencyKey as [[|a k']|]; cbn; [discriminate | | discriminate].
  intros H. injection H as <-. split; [reflexivity | discriminate].
Qed.

(** A lookup under another key, or under no key, leaves the entry of
    [key] alone. *)
Lemma lookupCached_other idempotencyKey now key
    (c : Idempotency.IdempotencyCache ChatResponse) :
  idempotencyKey ≠ Some key →
  Idempotency.cache (snd (lookupCached idempotencyKey now c)) !! key
    = Idempotency.cache c !! key ∧
  Idempotency.ttl (snd (lookupCached idempotencyKey now c)) = Idempotency.ttl c.
Proof.
  intros Hne. unfold lookupCached.
  destruct (usableKey idempotencyKey) as [k|] eqn:Hk; [|split; reflexivity].
  apply usableKey_some in Hk as [-> _].
  assert (k ≠ key) as Hkk by congruence.
  unfold Idempotency.get.
  destruct (Idempotency.cache c !! k) as [e|]; [|split; reflexivity].
  destruct (now - Idempotency.timestamp e >? Idempotency.ttl c);
    [|split; reflexivity].
  cbn. split; [apply lookup_delete_ne; assumption | reflexivity].
Qed.

(** A store under another key, or under no key, does the same. *)
Lemma storeResponse_other idempotencyKey now r key
    (c : Idempotency.IdempotencyCache ChatResponse) :
  idempotencyKey ≠ Some key →
  Idempotency.cache (storeResponse idempotencyKey now r c) !! key
    = Idempotency.cache c !! key ∧
  Idempotency.ttl (storeResponse idempotencyKey now r c) = Idempotency.ttl c.
Proof.
  intros Hne. unfold storeResponse.
  destruct (usableKey idempotencyKey) as [k|] eqn:Hk; [|split; reflexivity].
  apply usableKey_some in Hk as [-> _].
  assert (k ≠ key) as Hkk by congruence.
  cbn. split; [apply lookup_insert_ne; assumption | reflexivity].
Qed.

Abbreviation stepOf := (RouteRuns.step parseRequest parseResponse).
Abbreviation runOf := (RouteRuns.run parseRequest parseResponse).

(** One event keeps a settled key settled, and answers an arrival with
    that key from the cache. *)
Lemma step_settledKey key v t ev (s : RouteRuns.Server) :
  key ≠ "" →
  RouteRuns.settledKey key v t s →
  (∀ id raw now, ev = RouteRuns.Arrives id (Some key) raw now →
     now - t ≤ Idempotency.ttl (RouteRuns.shared s)) →
  RouteRuns.settledKey key v t (snd (stepOf ev s)) ∧
  Idempotency.ttl (RouteRuns.shared (snd (stepOf ev s)))
    = Idempotency.ttl (RouteRuns.shared s) ∧
  (∀ id raw now, ev = RouteRuns.Arrives id (Some key) raw now →
     fst (stepOf ev s) = Some (Replied (Cached v))).
Proof.
  intros Hkey [Hentry Hnone] Htime. unfold RouteRuns.settledKey.
  destruct ev as [id k raw now | id answer now]; unfold RouteRuns.step.
  - destruct (decide (k = Some key)) as [->|Hk].
    + specialize (Htime id raw now eq_refl).
      unfold RouteRuns.arrive.
      rewrite (lookupCached_hit key now (RouteRuns.shared s) v Hkey).
      * cbn [fst snd RouteRuns.shared RouteRuns.awaiting].
        split; [split; assumption|]. split; [reflexivity|].
        intros; reflexivity.
      * unfold Idempotency.get. rewrite Hentry. cbn.
        destruct (Z.gtb_spec (now - t) (Idempotency.ttl (RouteRuns.shared s)));
          [lia | reflexivity].
    + pose proof (lookupCached_other k now key (RouteRuns.shared s) Hk)
        as [Hsame Httl].
      unfold RouteRuns.arrive.
      destruct (lookupCached k now (RouteRuns.shared s)) as [[v0|] c1];
        cbn [snd] in Hsame, Httl.
      * cbn [fst snd RouteRuns.shared RouteRuns.awaiting]. rewrite Hsame.
        split; [split; assumption|].
        split; [assumption|]. intros ? ? ? H. congruence.
      * destruct (parseRequest raw) as [issues|body];
          cbn [fst snd RouteRuns.shared RouteRuns.awaiting]; rewrite Hsame.
        -- split; [split; assumption|].
           split; [assumption|]. intros ? ? ? H. congruence.
        -- split; [split; [assumption|]|].
           ++ intros id'. destruct (decide (id = id')) as [->|Hid].
              ** rewrite lookup_insert_eq. congruence.
              ** rewrite lookup_insert_ne by assumption. apply Hnone.
           ++ split; [assumption|]. intros ? ? ? H. congruence.
  - destruct (RouteRuns.awaiting s !! id) as [k|] eqn:Hk.
    + assert (k ≠ Some key) as Hne.
      { intros ->. exact (Hnone id Hk). }
      unfold RouteRuns.resume.
      assert (∀ id', delete id (RouteRuns.awaiting s) !! id' ≠ Some (Some key))
        as Hnone'.
      { intros id'. destruct (decide (id = id')) as [->|Hid].
        - rewrite lookup_delete_eq. discriminate.
        - rewrite lookup_delete_ne by assumption. apply Hnone. }
      destruct answer as [response|e].
      * destruct (parseResponse response) as [issues|validated];
          cbn [fst snd RouteRuns.shared RouteRuns.awaiting].
        -- split; [split; assumption|]. split; [reflexivity|]. discriminate.
        -- pose proof (storeResponse_other k now validated key
                         (RouteRuns.shared s) Hne) as [Hsame Httl].
           rewrite Hsame.
           split; [split; assumption|]. split; [assumption|]. discriminate.
      * cbn [fst snd RouteRuns.shared RouteRuns.awaiting].
        split; [split; assumption|]. split; [reflexivity|]. discriminate.
    + cbn [fst snd]. split; [split; assumption|]. split; [reflexivity|].
      discriminate.
Qed.

(** The same over a run of events. *)
Lemma run_settledKey key v t evs : ∀ (s : RouteRuns.Server),
  key ≠ "" →
  RouteRuns.settledKey key v t s →
  Forall (λ ev, ∀ id raw now, ev = RouteRuns.Arrives id (Some key) raw now →
            now - t ≤ Idempotency.ttl (RouteRuns.shared s)) evs →
  Forall2 (λ ev r, ∀ id raw now, ev = RouteRuns.Arrives id (Some key) raw now →
             r = Some (Replied (Cached v)))
          evs (fst (runOf evs s)) ∧
  RouteRuns.settledKey key v t (snd (runOf evs s)).
Proof.
  induction evs as [|ev evs IH]; intros s Hkey Hs Htimes.
  - cbn. split; [constructor | assumption].
  - apply Forall_cons in Htimes as [Htime Htimes].
    pose proof (step_settledKey key v t ev s Hkey Hs Htime) as (Hs1 & Httl & Hr).
    cbn [RouteRuns.run].
    destruct (stepOf ev s) as [r s1]. cbn [fst snd] in Hs1, Httl, Hr.
    rewrite <- Httl in Htimes.
    destruct (IH s1 Hkey Hs1 Htimes) as [Hrs Hs2].
    destruct (runOf evs s1) as [rs s2]. cbn [fst snd] in *.
    split; [constructor; assumption | assumption].
Qed.

(** X26.  Replay.  Handlers of several requests run side by side on one
    cache; each is interrupted only at its call of the service.  When a
    request with a key completes and its response is stored at time
    [now2], and no other request with that key is waiting for the service
    at that moment, then every request with that key that arrives
    afterwards within the TTL of the store gets that response from the
    cache, whatever its body and whatever other requests arrive or
    complete in between; it never waits for the service, and the entry
    stays as stored. *)
Theorem route_replay (s0 : RouteRuns.Server) id0 key response v now2 evs :
  key ≠ "" →
  RouteRuns.awaiting s0 !! id0 = Some (Some key) →
  (∀ id, id ≠ id0 → RouteRuns.awaiting s0 !! id ≠ Some (Some key)) →
  parseResponse response = inr v →
  Forall (λ ev, ∀ id raw now, ev = RouteRuns.Arrives id (Some key) raw now →
            now - now2 ≤ Idempotency.ttl (RouteRuns.shared s0)) evs →
  ∃ rs s',
    runOf (RouteRuns.Settles id0 (Return response) now2 :: evs) s0
    = (Some (Replied (Completed v)) :: rs, s') ∧
    Forall2 (λ ev r, ∀ id raw now, ev = RouteRuns.Arrives id (Some key) raw now →
               r = Some (Replied (Cached v)))
            evs rs ∧
    Idempotency.cache (RouteRuns.shared s') !! key
      = Some (Idempotency.mkCacheEntry v now2) ∧
    (∀ id, RouteRuns.awaiting s' !! id ≠ Some (Some key)).
Proof.
  intros Hkey Hid0 Hothers Hparse Htimes.
  cbn [RouteRuns.run RouteRuns.step]. rewrite Hid0.
  unfold RouteRuns.resume. rewrite Hparse.
  set (s1 := RouteRuns.mkServer
               (storeResponse (Some key) now2 v (RouteRuns.shared s0))
               (delete id0 (RouteRuns.awaiting s0))).
  assert (RouteRuns.settledKey key v now2 s1) as Hs1.
  { split.
    - destruct key as [|a key]; [contradiction|].
      cbn. apply lookup_insert_eq.
    - intros id. cbn. destruct (decide (id0 = id)) as [->|Hne].
      + rewrite lookup_delete_eq. discriminate.
      + rewrite lookup_delete_ne by assumption. apply Hothers. congruence. }
  assert (Idempotency.ttl (RouteRuns.shared s1)
          = Idempotency.ttl (RouteRuns.shared s0)) as Httl.
  { destruct key as [|a key]; [contradiction | reflexivity]. }
  rewrite <- Httl in Htimes.
  destruct (run_settledKey key v now2 evs s1 Hkey Hs1 Htimes) as [Hrs [He Hn]].
  destruct (runOf evs s1) as [rs s2]. cbn [fst snd] in *.
  exists rs, s2. repeat split; assumption.
Qed.

(** X27.  A body that fails validation never reaches the service: the
    world is unchanged, and the reply is the validation error with status
    400, unless the idempotency key hits, in which case it is the cached
    response. *)
Theorem route_invalid_body (svc : Service.LLMService World)
    idempotencyKey raw now now2 c w issues :
  parseRequest raw = inl issues →
  ∃ r c',
    handle svc idempotencyKey raw now now2 c w = Some (Replied r, c', w) ∧
    (fst (lookupCached idempotencyKey now c) = None →
     r = ValidationError issues ∧ statusOf r = 400) ∧
    (∀ v, fst (lookupCached idempotencyKey now c) = Some v → r = Cached v).
Proof.
  intros Hparse. unfold handler.
  destruct (lookupCached idempotencyKey now c) as [[v|] c1]; cbn [fst].
  - eexists _, _. split; [reflexivity|]. split; [discriminate|].
    intros v' Hv. injection Hv as <-. reflexivity.
  - rewrite Hparse. eexists _, _. split; [reflexivity|]. split; [auto|].
    intros v Hv. discriminate.
Qed.

(** X28.  An empty [X-Idempotency-Key] header is no key: the handler
    behaves as if the header were absent, so nothing is looked up and
    nothing is stored. *)
Theorem route_empty_key (svc : Service.LLMService World) raw now now2 c w :
  handle svc (Some "") raw now now2 c w = handle svc None raw now now2 c w ∧
  match handle svc (Some "") raw now now2 c w with
  | Some (_, c', _) => c' = c
  | None => True
  end.
Proof.
  split; [reflexivity|].
  change (handle svc (Some "") raw now now2 c w)
    with (handle svc None raw now now2 c w).
  apply handler_no_key.
Qed.

End RouteProperties.

(** ** The properties above at concrete inputs *)

Import Scenarios.

Lemma retry_attempts_bounded_witness :
  ∃ c tr,
    Retry.retryWithBackoff failTwice Retry.defaultOptions 0%nat
    = Some (c, Retry.stateAfter failTwice 0%nat (Retry.invocations tr), tr) ∧
    tr = flat_map (λ ms, [Retry.Invoke; Retry.Sleep ms]) (Retry.sleeps tr)
         ++ [Retry.Invoke] ∧
    (1 ≤ Retry.invocations tr)%nat ∧
    Z.of_nat (Retry.invocations tr) ≤ 3 ∧
    S (base.length (Retry.sleeps tr)) = Retry.invocations tr ∧
    last tr = Some Retry.Invoke.
Proof.
  apply (retry_attempts_bounded failTwice Retry.defaultOptions 0%nat).
  simpl. lia.
Defined.

Lemma retry_succeeds_after_failures_witness :
  ∃ tr,
    Retry.retryWithBackoff failTwice Retry.defaultOptions 0%nat
    = Some (Retry.Return "success", Retry.stateAfter failTwice 0%nat 3, tr) ∧
    Retry.invocations tr = 3%nat ∧
    base.length (Retry.sleeps tr) = 2%nat.
Proof.
  apply (retry_succeeds_after_failures failTwice Retry.defaultOptions 0%nat 2 "success").
  - simpl. lia.
  - intros [|[|i]] Hi; [reflexivity | reflexivity | lia].
  - reflexivity.
Defined.

Lemma rate_limit_keys_commute_witness :
  fst (RateLimit.check 5 "ip-1" (snd (RateLimit.check 7 "ip-2" usedUp)))
  = fst (RateLimit.check 5 "ip-1" usedUp) ∧
  snd (RateLimit.check 5 "ip-1" (snd (RateLimit.check 7 "ip-2" usedUp)))
  = snd (RateLimit.check 7 "ip-2" (snd (RateLimit.check 5 "ip-1" usedUp))).
Proof.
  apply (rate_limit_keys_commute 5 "ip-1" 7 "ip-2" usedUp). discriminate.
Defined.

Lemma rate_limit_remaining_bounds_witness :
  let l := snd (RateLimit.checks [(0, "ip-1"); (1, "ip-1")] (RateLimit.new 2 60000)) in
  let r := fst (RateLimit.check 5 "ip-1" l) in
  0 ≤ RateLimit.remaining r ≤ 2 - 1 ∧
  (RateLimit.allowed r = false → RateLimit.remaining r = 0) ∧
  ∃ e, RateLimit.requests (snd (RateLimit.check 5 "ip-1" l)) !! "ip-1" = Some e ∧
       RateLimit.reset r = RateLimit.resetTime e ∧
       (RateLimit.allowed r = true → RateLimit.remaining r = 2 - RateLimit.count e).
Proof.
  apply (rate_limit_remaining_bounds 2 60000 [(0, "ip-1"); (1, "ip-1")] 5 "ip-1").
  lia.
Defined.

Lemma rate_limit_refusal_stable_witness :
  snd (RateLimit.check 5 "ip-1" usedUp) = usedUp ∧
  ∀ now', now' ≤ RateLimit.reset (fst (RateLimit.check 5 "ip-1" usedUp)) →
    RateLimit.check now' "ip-1" usedUp = RateLimit.check 5 "ip-1" usedUp.
Proof.
  apply (rate_limit_refusal_stable 5 "ip-1" usedUp). reflexivity.
Defined.

Lemma idempotency_reads_transparent_witness :
  fst (Idempotency.get 2000 "k"
         (snd (Idempotency.get 1500 "k"
                 (Idempotency.set 0 "k" "v" (Idempotency.new 1000)))))
  = fst (Idempotency.get 2000 "k" (Idempotency.set 0 "k" "v" (Idempotency.new 1000))).
Proof.
  apply (idempotency_reads_transparent
           (Idempotency.set 0 "k" "v" (Idempotency.new 1000)) "k" "k" 1500 2000).
  lia.
Defined.

Lemma idempotency_keys_independent_witness :
  fst (Idempotency.get 10 "k"
         (Idempotency.set 5 "other" "w"
            (Idempotency.set 0 "k" "v" (Idempotency.new 1000))))
  = fst (Idempotency.get 10 "k" (Idempotency.set 0 "k" "v" (Idempotency.new 1000))).
Proof.
  apply (idempotency_keys_independent
           (Idempotency.set 0 "k" "v" (Idempotency.new 1000)) "k" "other" "w" 5 10).
  discriminate.
Defined.

Lemma coalescer_equal_serialization_witness :
  let st := (Coalescing.new 100, Coalescing.noPromises (TResult := nat)) in
  let '(e1, st1) :=
    Coalescing.execute (λ _ : unit, "{}") (Coalescing.Str "{}") 0 st in
  Coalescing.execute (λ _ : unit, "{}") (Coalescing.Obj tt) 0 st1
  = (Coalescing.mkExecuted "{}" (Coalescing.awaited e1) false, st1).
Proof.
  apply (coalescer_equal_serialization (λ _ : unit, "{}") (Coalescing.Str "{}")
           (Coalescing.Obj tt) 0 (Coalescing.new 100, Coalescing.noPromises)).
  - simpl. lia.
  - reflexivity.
Defined.

Lemma coalescer_zero_window_witness :
  Forall (λ e, Coalescing.called e = true)
    (fst (Coalescing.run (TKey := unit) (TResult := nat) (λ _, "null")
            [Coalescing.Execute (Coalescing.Str "k") 0;
             Coalescing.Execute (Coalescing.Str "k") 0;
             Coalescing.Execute (Coalescing.Str "k") 3]
            (Coalescing.new 0, Coalescing.noPromises))).
Proof.
  apply (coalescer_zero_window (λ _ : unit, "null") 0 0
           [Coalescing.Execute (Coalescing.Str "k") 0;
            Coalescing.Execute (Coalescing.Str "k") 0;
            Coalescing.Execute (Coalescing.Str "k") 3]).
  - lia.
  - simpl. lia.
Defined.

Lemma service_unknown_provider_witness :
  Service.chat
    (Service.new (Wiring.createCircuitBreaker 5 (Js.mkError "timeout"))
       [Wiring.lift unavailable] "openai" None)
    request (Some "anthropic") (Wiring.mkWorld 0 ∅ 0%nat)
  = Some (Retry.Throw (Some (Js.mkError ("Provider not found: " +:+
                                         default "openai" (Some "anthropic")))),
          Wiring.mkWorld 0 ∅ 0%nat, []).
Proof.
  apply (service_unknown_provider (Wiring.createCircuitBreaker 5 (Js.mkError "timeout"))
           [Wiring.lift unavailable] "openai" None request (Some "anthropic")
           (Wiring.mkWorld 0 ∅ 0%nat)).
  intros p [<-|[]]. simpl. discriminate.
Defined.

Lemma service_chat_attempts_witness :
  ∃ c tr,
    Service.chat (serviceWith flakyBreaker) request None 0%nat
    = Some (c,
            Retry.stateAfter
              (Service.protectedCall
                 (Service.circuitBreakers (serviceWith flakyBreaker)
                    !! Base.name unavailable) request)
              0%nat (Retry.invocations tr),
            tr) ∧
    (tr = [Retry.Invoke] ∨ tr = [Retry.Invoke; Retry.Sleep 100; Retry.Invoke] ∨
     tr = [Retry.Invoke; Retry.Sleep 100; Retry.Invoke; Retry.Sleep 200; Retry.Invoke]).
Proof.
  apply (service_chat_attempts (serviceWith flakyBreaker) request None unavailable 0%nat).
  reflexivity.
Defined.

Lemma service_chat_rejected_thrice_witness :
  Service.chat (serviceWith rejectingBreaker) request None 0%nat
  = Some (Retry.Throw (Some (Js.mkError
            ("Max retry attempts (3) reached. Last error: " +:+
             Js.message (Js.mkError "Breaker is open")))),
          3%nat,
          [Retry.Invoke; Retry.Sleep 100; Retry.Invoke; Retry.Sleep 200; Retry.Invoke]).
Proof.
  apply (service_chat_rejected_thrice (serviceWith rejectingBreaker) request None
           unavailable rejectingBreaker 0%nat
           (Js.mkError "Breaker is open") 1%nat
           (Js.mkError "Breaker is open") 2%nat
           (Js.mkError "Breaker is open") 3%nat); reflexivity.
Defined.

Lemma service_chat_recovers_witness :
  Service.chat (serviceWith flakyBreaker) request None 0%nat
  = Some (Retry.Return sampleResponse, 2%nat,
          [Retry.Invoke; Retry.Sleep 100; Retry.Invoke]).
Proof.
  apply (service_chat_recovers (serviceWith flakyBreaker) request None
           unavailable flakyBreaker 0%nat (Js.mkError "Timed out") 1%nat
           sampleResponse 2%nat); reflexivity.
Defined.

Lemma route_cache_hit_witness :
  Route.handler parseBody acceptResponse (serviceWith rejectingBreaker)
    (Some "k") None 10 20
    (Idempotency.set 0 "k" sampleResponse (Idempotency.new 1000)) 0%nat
  = Some (Route.Replied (Route.Cached sampleResponse),
          Idempotency.set 0 "k" sampleResponse (Idempotency.new 1000), 0%nat).
Proof.
  apply (route_cache_hit parseBody acceptResponse (serviceWith rejectingBreaker)
           "k" None 10 20
           (Idempotency.set 0 "k" sampleResponse (Idempotency.new 1000)) 0%nat
           sampleResponse).
  - discriminate.
  - reflexivity.
Defined.

Lemma route_replay_witness :
  ∃ rs s',
    RouteRuns.run parseBody acceptResponse
      (RouteRuns.Settles 1 (Retry.Return sampleResponse) 5 ::
       [RouteRuns.Arrives 2 (Some "j") (Some sampleBody) 6;
        RouteRuns.Arrives 3 (Some "k") None 100;
        RouteRuns.Settles 2 (Retry.Return otherResponse) 120;
        RouteRuns.Arrives 4 (Some "k") (Some sampleBody) 900])
      (RouteRuns.mkServer (Idempotency.new 1000) {[ 1%nat := Some "k" ]})
    = (Some (Route.Replied (Route.Completed sampleResponse)) :: rs, s') ∧
    Forall2 (λ ev r, ∀ id raw now,
               ev = RouteRuns.Arrives id (Some "k") raw now →
               r = Some (Route.Replied (Route.Cached sampleResponse)))
            [RouteRuns.Arrives 2 (Some "j") (Some sampleBody) 6;
             RouteRuns.Arrives 3 (Some "k") None 100;
             RouteRuns.Settles 2 (Retry.Return otherResponse) 120;
             RouteRuns.Arrives 4 (Some "k") (Some sampleBody) 900]
            rs ∧
    Idempotency.cache (RouteRuns.shared s') !! "k"
      = Some (Idempotency.mkCacheEntry sampleResponse 5) ∧
    (∀ id, RouteRuns.awaiting s' !! id ≠ Some (Some "k")).
Proof.
  apply (route_replay parseBody acceptResponse
           (RouteRuns.mkServer (Idempotency.new 1000) {[ 1%nat := Some "k" ]})
           1%nat "k" sampleResponse sampleResponse 5
           [RouteRuns.Arrives 2 (Some "j") (Some sampleBody) 6;
            RouteRuns.Arrives 3 (Some "k") None 100;
            RouteRuns.Settles 2 (Retry.Return otherResponse) 120;
            RouteRuns.Arrives 4 (Some "k") (Some sampleBody) 900]).
  - discriminate.
  - reflexivity.
  - intros id Hid. simpl. rewrite lookup_singleton_ne by congruence. discriminate.
  - reflexivity.
  - repeat (constructor;
            [intros id raw now H; try discriminate H; injection H as _ _ <-;
             simpl; lia|]).
    constructor.
Defined.

(** The run of that witness, event by event: the request with key "j" goes
    to the service, the two with key "k" are answered from the cache, also
    the one whose body is invalid. *)
Example route_replay_run :
  fst (RouteRuns.run parseBody acceptResponse
         [RouteRuns.Settles 1 (Retry.Return sampleResponse) 5;
          RouteRuns.Arrives 2 (Some "j") (Some sampleBody) 6;
          RouteRuns.Arrives 3 (Some "k") None 100;
          RouteRuns.Settles 2 (Retry.Return otherResponse) 120;
          RouteRuns.Arrives 4 (Some "k") (Some sampleBody) 900]
         (RouteRuns.mkServer (Idempotency.new 1000) {[ 1%nat := Some "k" ]}))
  = [Some (Route.Replied (Route.Completed sampleResponse));
     None;
     Some (Route.Replied (Route.Cached sampleResponse));
     Some (Route.Replied (Route.Completed otherResponse));
     Some (Route.Replied (Route.Cached sampleResponse))].
Proof. vm_compute. reflexivity. Qed.

(** With a second request of the same key waiting for the service when the
    first one stores its response, the second store replaces the first:
    a later request with that key gets the second response. *)
Example route_concurrent_overwrite :
  fst (RouteRuns.run parseBody acceptResponse
         [RouteRuns.Arrives 1 (Some "k") (Some sampleBody) 0;
          RouteRuns.Arrives 2 (Some "k") (Some sampleBody) 1;
          RouteRuns.Settles 1 (Retry.Return sampleResponse) 5;
          RouteRuns.Settles 2 (Retry.Return otherResponse) 6;
          RouteRuns.Arrives 3 (Some "k") (Some sampleBody) 100]
         (RouteRuns.mkServer (Idempotency.new 1000) ∅))
  = [None;
     None;
     Some (Route.Replied (Route.Completed sampleResponse));
     Some (Route.Replied (Route.Completed otherResponse));
     Some (Route.Replied (Route.Cached otherResponse))].
Proof. vm_compute. reflexivity. Qed.

Lemma route_invalid_body_witness :
  ∃ r c',
    Route.handler parseBody acceptResponse (serviceWith answeringBreaker)
      None None 0 5 (Idempotency.new 1000) 0%nat
    = Some (Route.Replied r, c', 0%nat) ∧
    (fst (Route.lookupCached None 0 (Idempotency.new 1000)) = None →
     r = Route.ValidationError ["Required"] ∧ Route.statusOf r = 400) ∧
    (∀ v, fst (Route.lookupCached None 0 (Idempotency.new 1000)) = Some v →
          r = Route.Cached v).
Proof.
  apply (route_invalid_body parseBody acceptResponse (serviceWith answeringBreaker)
           None None 0 5 (Idempotency.new 1000) 0%nat ["Required"]).
  reflexivity.
Defined.

(** ** The two adapters side by side *)

Section AdapterProperties.
Import Js Base.

(** X29.  On a request without system messages the two adapters send the
    same model, the same messages and the same temperature; they differ in
    the token limit only when the request sets none (OpenAI then sends
    none, Anthropic 4096).  On a request with a system message they differ:
    OpenAI forwards it in place, Anthropic does not forward it.  Both
    classify a thrown API error by its status in the same way. *)
Theorem adapters_agree (request : ChatRequest) :
  (Forall (λ m, role m ≠ system) (messages request) →
     OpenAI.p_messages (OpenAI.createParams request)
     = Anthropic.p_messages (Anthropic.createParams request) ∧
     Anthropic.p_system (Anthropic.createParams request) = None) ∧
  (∀ m, In m (messages request) → role m = system →
     In m (OpenAI.p_messages (OpenAI.createParams request)) ∧
     ¬ In m (Anthropic.p_messages (Anthropic.createParams request))) ∧
  OpenAI.p_model (OpenAI.createParams request)
  = Anthropic.p_model (Anthropic.createParams request) ∧
  OpenAI.p_temperature (OpenAI.createParams request)
  = Anthropic.p_temperature (Anthropic.createParams request) ∧
  default 4096 (OpenAI.max_tokens (OpenAI.createParams request))
  = Anthropic.max_tokens (Anthropic.createParams request) ∧
  (∀ status e,
     OpenAI.isRetryable (OpenAI.APIError status e)
     = Anthropic.isRetryable (Anthropic.APIError status e)) ∧
  (∀ e, OpenAI.isRetryable (OpenAI.OtherError e)
        = Anthropic.isRetryable (Anthropic.OtherError e)).
Proof.
  unfold OpenAI.createParams, Anthropic.createParams. cbn.
  split; [|split; [|repeat split]].
  - intros Hnone. rewrite filter_non_system, find_non_system by assumption.
    split; reflexivity.
  - intros m Hin Hrole. split; [exact Hin|].
    intros Hf. apply List.filter_In in Hf as [_ Hf].
    unfold Anthropic.isSystem in Hf.
    apply negb_true_iff, bool_decide_eq_false in Hf. contradiction.
Qed.

(** X30.  The OpenAI response mapping: the finish reason is [length]
    exactly when the first choice's finish reason is "length" and is never
    [content_filter]; a response without choices, or whose first choice has
    no content, gives empty content; a response without usage gives zero
    for all three counts; the total is the vendor's own figure. *)
Theorem openai_response_mapping (response : OpenAI.ApiResponse) :
  let r := OpenAI.toChatResponse response in
  finishReason r ≠ content_filter ∧
  (finishReason r = length ↔
   ∃ choice rest, OpenAI.choices response = choice :: rest ∧
                  OpenAI.finish_reason choice = "length") ∧
  (OpenAI.choices response = [] → responseContent r = "" ∧ finishReason r = stop) ∧
  (∀ choice rest, OpenAI.choices response = choice :: rest →
     responseContent r = default "" (OpenAI.messageContent choice)) ∧
  (OpenAI.r_usage response = None →
     usage r = {| promptTokens := 0; completionTokens := 0; totalTokens := 0 |}) ∧
  (∀ u, OpenAI.r_usage response = Some u →
     totalTokens (usage r) = default 0 (OpenAI.total_tokens u)).
Proof.
  cbn zeta. unfold OpenAI.toChatResponse.
  cbn [finishReason responseContent usage totalTokens].
  split; [|split; [|split; [|split; [|split]]]].
  - destruct (OpenAI.choices response) as [|choice rest]; [discriminate|].
    destruct (String.eqb (OpenAI.finish_reason choice) "length"); discriminate.
  - destruct (OpenAI.choices response) as [|choice rest].
    + split; [discriminate | intros (ch & rs & Hc & _); discriminate].
    + destruct (String.eqb_spec (OpenAI.finish_reason choice) "length") as [Heq|Hne].
      * split; [intros _; eauto | reflexivity].
      * split; [discriminate|]. intros (ch & rs & Hc & Hl).
        injection Hc as <- _. contradiction.
  - intros ->. split; reflexivity.
  - intros choice rest ->. reflexivity.
  - intros ->. reflexivity.
  - intros u ->. reflexivity.
Qed.

End AdapterProperties.

Example openai_total_is_vendor_figure :
  Base.totalTokens (Base.usage (OpenAI.toChatResponse
    (OpenAI.mkApiResponse "r" [] "gpt-4"
       (Some (OpenAI.mkApiUsage (Some 3) (Some 2) (Some 7)))))) = 7.
Proof. reflexivity. Qed.
